(** * Vendor-prefix resolution over the Can I Use database

    A shallow embedding of [lib/assets/caniuse.js]: the parser of the raw
    support database ([parseDB] and its three helpers) and the resolver
    ([resolvePrefixes], [getVendorsList], [getVersionSlice]).

    Conventions of the embedding:
    - a JavaScript object that is enumerated ([_.each], [_.keys]) is an
      association list in enumeration order; an object that is only read
      by key is a [gmap]; only own properties are modelled;
    - [null]/[undefined] is [None];
    - an exception is the [Throw] outcome; the three module variables
      [cssDB], [vendorsDB], [erasDB] are an explicit state;
    - what the host leaves open ([Array.prototype.sort] on elements that
      compare equal) or what is outside this file ([JSON.parse]) is a
      field of the class [Engine];
    - strings are sequences of 8-bit characters, so [String.length] is the
      [length] of the source for the ASCII prefixes the database holds. *)

From Stdlib Require Import ZArith Lia String Ascii List Sorted Permutation Bool.
From stdpp Require Import base option list strings gmap sorting.

Local Open Scope string_scope.
Local Open Scope Z_scope.

(** ** Outcomes and the state of the module *)

Inductive error : Type :=
| SyntaxError   (* raised by JSON.parse *)
| TypeError.    (* property access on undefined *)

Inductive outcome (A : Type) : Type :=
| Ok (a : A)
| Throw (e : error).
Arguments Ok {A} a.
Arguments Throw {A} e.

(** [outcome] is a monad in the sense of stdpp, so that [x ← e; k] reads
    as "evaluate [e]; if it raised, propagate". *)
Global Instance outcome_ret : MRet outcome := λ A a, Ok a.
Global Instance outcome_bind : MBind outcome := λ A B f x,
  match x with
  | Ok a => f a
  | Throw e => Throw e
  end.

(** ** Host functions *)

Module Js.

(** [String.prototype.indexOf]: position of the first occurrence, or -1. *)
Definition str_indexOf (s needle : string) : Z :=
  match String.index 0 needle s with
  | Some n => Z.of_nat n
  | None => -1
  end.

(** [String.prototype.substr(start)] for a non-negative [start]. *)
Fixpoint substr (start : nat) (s : string) : string :=
  match start, s with
  | O, _ => s
  | S n, String _ r => substr n r
  | S _, EmptyString => EmptyString
  end.

(** Digit value of a character in the given radix (10 or 16). *)
Definition digit_of (radix : Z) (c : ascii) : option Z :=
  let n := Z.of_nat (nat_of_ascii c) in
  let d :=
    if (48 <=? n) && (n <=? 57) then Some (n - 48)
    else if (97 <=? n) && (n <=? 102) then Some (n - 87)
    else if (65 <=? n) && (n <=? 70) then Some (n - 55)
    else None in
  match d with
  | Some v => if v <? radix then Some v else None
  | None => None
  end.

(** Value of the longest prefix of digits; [acc] is [None] until a digit
    has been read. *)
Fixpoint parse_digits (radix : Z) (acc : option Z) (s : string) : option Z :=
  match s with
  | EmptyString => acc
  | String c r =>
      match digit_of radix c with
      | Some d => parse_digits radix (Some (radix * default 0 acc + d)) r
      | None => acc
      end
  end.

Definition is_space (c : ascii) : bool :=
  let n := nat_of_ascii c in
  ((9 <=? n) && (n <=? 13))%nat || (n =? 32)%nat.

Fixpoint skip_spaces (s : string) : string :=
  match s with
  | String c r => if is_space c then skip_spaces r else s
  | EmptyString => s
  end.

Definition parse_unsigned (s : string) : option Z :=
  match s with
  | String "0" (String "x" r) | String "0" (String "X" r) =>
      parse_digits 16 None r
  | _ => parse_digits 10 None s
  end.

(** [parseInt(s)] without a radix; [None] is NaN.  Era numbers are far
    below 2^53, where the host's numbers are exact integers. *)
Definition parseInt (s : string) : option Z :=
  match skip_spaces s with
  | String "-" r => Z.opp <$> parse_unsigned r
  | String "+" r => parse_unsigned r
  | r => parse_unsigned r
  end.

(** [Array.prototype.slice(start)]: a negative [start] counts from the
    end, and both ends are clamped to the array. *)
Definition slice {A} (start : Z) (l : list A) : list A :=
  let len := Z.of_nat (length l) in
  let k := if start <? 0 then Z.max (len + start) 0 else Z.min start len in
  drop (Z.to_nat k) l.

(** Truth value of a number: everything but 0 (and NaN). *)
Definition truthy (n : Z) : bool := negb (n =? 0).

(** Truth value of a version entry: [null] and the empty string are
    false, every other string is true. *)
Definition truthy_str (v : option string) : bool :=
  match v with
  | None => false
  | Some s => negb (String.eqb s "")
  end.

(** The property name a version entry stands for in [o[v]]. *)
Definition property_key (v : option string) : string :=
  match v with
  | None => "null"
  | Some s => s
  end.

End Js.

(** A comparison function is consistent on a list when it orders the
    elements as some integer rank does.  On a finite set this is the
    total-preorder condition of the language standard. *)
Definition comparator : Type := string → string → Z.

Definition consistent (cmp : comparator) (l : list string) : Prop :=
  ∃ rank : string → Z,
    ∀ a b, a ∈ l → b ∈ l → Z.sgn (cmp a b) = Z.sgn (rank a - rank b).

(** ** The raw database, once decoded *)

Record agent : Type := {
  agent_prefix : string;
  agent_versions : list (option string)
}.

(** [stats]: vendor ↦ version label ↦ support code. *)
Record section : Type := {
  section_stats : gmap string (gmap string string)
}.

Record RawDatabase : Type := {
  raw_agents : list (string * agent);
  raw_data : list (string * section);
  raw_eras : list (string * string);
  raw_cats : option (gmap string (list string))
}.

(** The host: [JSON.parse] restricted to raw databases ([None] when it
    raises), and [Array.prototype.sort], about which the standard only
    promises a sorted permutation for a consistent comparison function. *)
Class Engine : Type := {
  JSON_parse : string → option RawDatabase;
  sort : comparator → list string → list string;
  sort_perm : ∀ cmp l, consistent cmp l → sort cmp l ≡ₚ l;
  sort_sorted : ∀ cmp l, consistent cmp l →
    StronglySorted (λ a b, cmp a b <= 0) (sort cmp l)
}.

(** ** The lodash functions the file uses *)

Module Lodash.

(** [_.keys]: own keys in enumeration order; [[]] for [null]. *)
Definition keys {V} (o : list (string * V)) : list string := o.*1.

Fixpoint indexOf_from (i : Z) (l : list string) (x : string) : Z :=
  match l with
  | [] => -1
  | y :: l' => if String.eqb y x then i else indexOf_from (i + 1) l' x
  end.

(** [_.indexOf]: index of the first occurrence, or -1. *)
Definition indexOf (l : list string) (x : string) : Z := indexOf_from 0 l x.

Definition includes (l : list string) (x : string) : bool :=
  existsb (String.eqb x) l.

Fixpoint unique_from (seen l : list string) : list string :=
  match l with
  | [] => []
  | x :: l' =>
      if includes seen x then unique_from seen l'
      else x :: unique_from (x :: seen) l'
  end.

(** [_.unique]: the first occurrence of every value, in order. *)
Definition unique (l : list string) : list string := unique_from [] l.

(** [_.intersection(a, b)]: the distinct values of [a] that occur in [b],
    in the order of [a]. *)
Definition intersection (a b : list string) : list string :=
  unique (filter (λ x, includes b x = true) a).

End Lodash.

(** ** Objects that are enumerated *)

Section Objects.
Context {V : Type}.

(** [o[k]], [None] when [k] is not a key. *)
Fixpoint obj_get (o : list (string * V)) (k : string) : option V :=
  match o with
  | [] => None
  | (k', v) :: o' => if String.eqb k' k then Some v else obj_get o' k
  end.

(** [o[k] = v]: an existing key keeps its place, a new one goes last. *)
Fixpoint obj_set (o : list (string * V)) (k : string) (v : V)
  : list (string * V) :=
  match o with
  | [] => [(k, v)]
  | (k', v') :: o' =>
      if String.eqb k' k then (k', v) :: o' else (k', v') :: obj_set o' k v
  end.

(** The keys of an object are pairwise distinct. *)
Definition wf_object (o : list (string * V)) : Prop := NoDup (Lodash.keys o).
End Objects.

(** ** The program *)

(** What the preference store returns for the three keys the file reads:
    [prefs.get('caniuse.enabled')] as a truth value,
    [prefs.getArray('caniuse.vendors')] ([None] when it returns [null]) and
    [prefs.get('caniuse.era')]. *)
Record preferences : Type := {
  caniuse_enabled : bool;
  caniuse_vendors : option (list string);
  caniuse_era : string
}.

Definition cssSections : list (string * list string) :=
  [
    ("border-image", ["border-image"]);
    ("css-boxshadow", ["box-shadow"]);
    ("css3-boxsizing", ["box-sizing"]);
    ("multicolumn", ["column-width"; "column-count"; "columns"; "column-gap";
       "column-rule-color"; "column-rule-style"; "column-rule-width";
       "column-rule"; "column-span"; "column-fill"]);
    ("border-radius", ["border-radius"; "border-top-left-radius";
       "border-top-right-radius"; "border-bottom-right-radius";
       "border-bottom-left-radius"]);
    ("transforms2d", ["transform"]);
    ("css-hyphens", ["hyphens"]);
    ("css-transitions", ["transition"; "transition-property";
       "transition-duration"; "transition-timing-function";
       "transition-delay"]);
    ("font-feature", ["font-feature-settings"]);
    ("css-animation", ["animation"; "animation-name"; "animation-duration";
       "animation-timing-function"; "animation-iteration-count";
       "animation-direction"; "animation-play-state"; "animation-delay";
       "animation-fill-mode"; "@keyframes"]);
    ("css-gradients", ["linear-gradient"]);
    ("css-masks", ["mask-image"; "mask-source-type"; "mask-repeat";
       "mask-position"; "mask-clip"; "mask-origin"; "mask-size"; "mask";
       "mask-type"; "mask-box-image-source"; "mask-box-image-slice";
       "mask-box-image-width"; "mask-box-image-outset";
       "mask-box-image-repeat"; "mask-box-image"; "clip-path"; "clip-rule"]);
    ("css-featurequeries", ["@supports"]);
    ("flexbox", ["flex"; "inline-flex"; "flex-direction"; "flex-wrap";
       "flex-flow"; "order"; "flex"]);
    ("calc", ["calc"]);
    ("object-fit", ["object-fit"; "object-position"]);
    ("css-grid", ["grid"; "inline-grid"; "grid-template-rows";
       "grid-template-columns"; "grid-template-areas"; "grid-template";
       "grid-auto-rows"; "grid-auto-columns"; " grid-auto-flow";
       "grid-auto-position"; "grid"; " grid-row-start"; "grid-column-start";
       "grid-row-end"; "grid-column-end"; "grid-column"; "grid-row";
       "grid-area"; "justify-self"; "justify-items"; "align-self";
       "align-items"]);
    ("css-repeating-gradients", ["repeating-linear-gradient"]);
    ("css-filters", ["filter"]);
    ("user-select-none", ["user-select"]);
    ("intrinsic-width", ["min-content"; "max-content"; "fit-content";
       "fill-available"]);
    ("css3-tabsize", ["tab-size"])
  ].

(** An entry of [vendorsDB]: the object [{prefix: ..., versions: ...}]. *)
Record VendorInfo : Type := {
  vi_prefix : string;
  vi_versions : list (option string)
}.

(** The three module variables; all are [null] until a database is parsed. *)
Record state : Type := {
  cssDB : option (gmap string (gmap string (gmap string string)));
  vendorsDB : option (list (string * VendorInfo));
  erasDB : option (list string)
}.

Definition initial : state :=
  {| cssDB := None; vendorsDB := None; erasDB := None |}.

(** The argument of [load]: a text still to be decoded, or a document. *)
Inductive load_input : Type :=
| Text (s : string)
| Doc (d : RawDatabase).

Definition parseVendors (data : RawDatabase) : list (string * VendorInfo) :=
  foldl (λ out '(name, agent),
           obj_set out name {| vi_prefix := agent_prefix agent;
                               vi_versions := agent_versions agent |})
        [] (raw_agents data).

(** The body of the callback of [_.each(data.data, ...)]: every identifier
    that [cssSections] lists for the section gets the section's table. *)
Definition assignSection (out : gmap string (gmap string (gmap string string)))
    (name : string) (section : section)
  : gmap string (gmap string (gmap string string)) :=
  match obj_get cssSections name with
  | Some kws => foldl (λ out kw, <[kw := section_stats section]> out) out kws
  | None => out
  end.

(** [data.cats.CSS] is read (and never used): it raises when the document
    has no [cats]. *)
Definition parseCSS (data : RawDatabase)
  : outcome (gmap string (gmap string (gmap string string))) :=
  cats ← match raw_cats data with
         | Some c => Ok c
         | None => Throw TypeError
         end;
  let cssCategories := cats !! "CSS" in
  Ok (foldl (λ out '(name, section), assignSection out name section)
            ∅ (raw_data data)).

(** The number of an era identifier: [parseInt(a.substr(1))]. *)
Definition era_number (a : string) : option Z := Js.parseInt (Js.substr 1 a).

(** The comparison function of [parseEra].  A difference with NaN is NaN,
    which a sort takes as "neither before nor after", that is 0. *)
Definition compare_eras : comparator := λ a b,
  match era_number a, era_number b with
  | Some x, Some y => x - y
  | _, _ => 0
  end.

Definition parseEra `{Engine} (data : RawDatabase) : list string :=
  sort compare_eras (Lodash.keys (raw_eras data)).

Definition decode `{Engine} (data : load_input) : outcome RawDatabase :=
  match data with
  | Text s =>
      match JSON_parse s with
      | Some d => Ok d
      | None => Throw SyntaxError
      end
  | Doc d => Ok d
  end.

(** [parseDB] (exported as [load]): the result and the state it leaves. *)
Definition parseDB `{Engine} (data : load_input) (st : state)
  : outcome unit * state :=
  match decode data with
  | Throw e => (Throw e, st)
  | Ok data =>
      let st := {| vendorsDB := Some (parseVendors data);
                   cssDB := cssDB st; erasDB := erasDB st |} in
      match parseCSS data with
      | Throw e => (Throw e, st)
      | Ok css =>
          let st := {| cssDB := Some css;
                       vendorsDB := vendorsDB st; erasDB := erasDB st |} in
          let st := {| erasDB := Some (parseEra data);
                       cssDB := cssDB st; vendorsDB := vendorsDB st |} in
          (Ok (), st)
      end
  end.

Definition load `{Engine} := parseDB.

(** A sequence of calls of [load], whatever their results. *)
Fixpoint loads `{Engine} (inputs : list load_input) (st : state) : state :=
  match inputs with
  | [] => st
  | data :: rest => loads rest (load data st).2
  end.

Definition getVendorsList (prefs : preferences) (st : state) : list string :=
  let allVendors := Lodash.keys (default [] (vendorsDB st)) in
  match caniuse_vendors prefs with
  | None => allVendors
  | Some vendors =>
      if bool_decide (head vendors = Some "all") then allVendors
      else Lodash.intersection allVendors vendors
  end.

Definition getVersionSlice (prefs : preferences) (st : state) : Z :=
  let era := caniuse_era prefs in
  let ix := Lodash.indexOf (default [] (erasDB st)) era in
  if negb (Js.truthy (Z.lnot ix))
  then Lodash.indexOf (default [] (erasDB st)) "e-2"
  else ix.

(** The [for] loop over one vendor's versions: [true] when it pushed the
    prefix (and left by [break]), [false] when it ran to the end. *)
Fixpoint scanVersions (propStats : gmap string (gmap string string))
    (vendor : string) (vendorVersions : list (option string)) : outcome bool :=
  match vendorVersions with
  | [] => Ok false
  | v :: rest =>
      if negb (Js.truthy_str v) then scanVersions propStats vendor rest
      else
        row ← from_option Ok (Throw TypeError) (propStats !! vendor);
        code ← from_option Ok (Throw TypeError) (row !! Js.property_key v);
        if Js.truthy (Z.lnot (Js.str_indexOf code "x")) then Ok true
        else scanVersions propStats vendor rest
  end.

(** The body of the [_.each] callback for one vendor. *)
Definition visitVendor (vdb : list (string * VendorInfo))
    (propStats : gmap string (gmap string string)) (versions : Z)
    (prefixes : list string) (vendor : string) : outcome (list string) :=
  info ← from_option Ok (Throw TypeError) (obj_get vdb vendor);
  let vendorVersions := Js.slice versions (vi_versions info) in
  hit ← scanVersions propStats vendor vendorVersions;
  Ok (if hit : bool then (prefixes ++ [vi_prefix info])%list else prefixes).

Fixpoint eachVendor (vdb : list (string * VendorInfo))
    (propStats : gmap string (gmap string string)) (versions : Z)
    (prefixes : list string) (vendors : list string) : outcome (list string) :=
  match vendors with
  | [] => Ok prefixes
  | vendor :: rest =>
      prefixes ← visitVendor vdb propStats versions prefixes vendor;
      eachVendor vdb propStats versions prefixes rest
  end.

(** The comparison function of the final sort. *)
Definition compare_lengths : comparator := λ a b,
  Z.of_nat (String.length b) - Z.of_nat (String.length a).

(** [resolvePrefixes]: [Ok None] is the [null] result. *)
Definition resolvePrefixes `{Engine} (prefs : preferences) (st : state)
    (property : string) : outcome (option (list string)) :=
  if negb (caniuse_enabled prefs) then Ok None
  else
    match cssDB st with
    | None => Ok None
    | Some css =>
        match css !! property with
        | None => Ok None
        | Some propStats =>
            let versions := getVersionSlice prefs st in
            prefixes ← eachVendor (default [] (vendorsDB st)) propStats
                         versions [] (getVendorsList prefs st);
            Ok (Some (sort compare_lengths (Lodash.unique prefixes)))
        end
    end.

(** The keys of [vendorsDB] are those of an object: pairwise distinct. *)
Definition wf_state (st : state) : Prop :=
  wf_object (default [] (vendorsDB st)).

(** No two sections of [cssSections] list a common identifier. *)
Definition sections_disjoint : Prop :=
  Forall (λ s1 : string * list string,
    Forall (λ s2 : string * list string,
      s1.1 = s2.1 ∨ Forall (λ kw, kw ∉ s2.2) s1.2) cssSections) cssSections.

(** ** What the specification says, where it is compared with the code *)


(** The eras the specification has considered: those at or after the
    starting index. *)
Definition spec_considered {A} (start : Z) (l : list A) : list A :=
  (filter (λ p, start <= p.1) (imap (λ i x, (Z.of_nat i, x)) l)).*2.

(** ** A reference host *)

Fixpoint insert_sorted (cmp : comparator) (x : string) (l : list string)
  : list string :=
  match l with
  | [] => [x]
  | y :: l' =>
      if cmp x y <=? 0 then x :: y :: l' else y :: insert_sorted cmp x l'
  end.

(** Insertion sort, which is stable. *)
Definition insertion_sort (cmp : comparator) (l : list string) : list string :=
  foldr (insert_sorted cmp) [] l.

Definition empty_document : RawDatabase :=
  {| raw_agents := []; raw_data := []; raw_eras := []; raw_cats := None |}.

(** A decoder that knows a single text, the empty object. *)
Definition decode_empty_only (s : string) : option RawDatabase :=
  if String.eqb s "{}" then Some empty_document else None.

(** ** Well-formed era tables *)

Definition is_digit (c : ascii) : bool :=
  let n := nat_of_ascii c in ((48 <=? n) && (n <=? 57))%nat.

Definition digit_value (c : ascii) : Z := Z.of_nat (nat_of_ascii c) - 48.

(** The number a string of decimal digits denotes. *)
Fixpoint numeral_value (s : string) : Z :=
  match s with
  | EmptyString => 0
  | String c r =>
      digit_value c * 10 ^ Z.of_nat (String.length r) + numeral_value r
  end.

Definition all_digits (s : string) : bool :=
  forallb is_digit (list_ascii_of_string s).

(** A decimal numeral without a redundant leading zero, of at most 15
    digits (so that a host number holds its value exactly). *)
Definition canonical_numeral (s : string) : bool :=
  match s with
  | EmptyString => false
  | String "0" r => String.eqb r ""
  | String _ _ => all_digits s && (String.length s <=? 15)%nat
  end.

(** An era identifier: the letter e and a signed numeral, as in [e-2],
    [e0], [e1]. *)
Definition valid_era (k : string) : bool :=
  match k with
  | String "e" (String "-" r) => canonical_numeral r && negb (String.eqb r "0")
  | String "e" r => canonical_numeral r
  | _ => false
  end.

(** [a] is an earlier era than [b]: both have a number, and that of [a]
    is smaller. *)
Definition era_before (a b : string) : Prop :=
  ∃ x y, era_number a = Some x ∧ era_number b = Some y ∧ x < y.

(** A valid [eras] section: an object whose keys are era identifiers. *)
Definition valid_eras (eras : list (string * string)) : Prop :=
  wf_object eras ∧ Forall (λ k, valid_era k = true) (Lodash.keys eras).

(** ** The scan of one vendor, entry by entry *)

(** The support code contains the flag [x] somewhere. *)
Definition contains_flag (code : string) : Prop :=
  ∃ before after, code = before ++ "x" ++ after.

(** The three things a version entry can do to the loop over one vendor's
    versions. *)
Section Entries.
Variables (propStats : gmap string (gmap string string)) (vendor : string).

(** The loop goes on: the entry is absent, or its code has no flag. *)
Definition passes (v : option string) : Prop :=
  Js.truthy_str v = false ∨
  ∃ s row code, v = Some s ∧ propStats !! vendor = Some row ∧
    row !! s = Some code ∧ ¬ contains_flag code.

(** The loop records the prefix and stops. *)
Definition flagged (v : option string) : Prop :=
  ∃ s row code, v = Some s ∧ Js.truthy_str v = true ∧
    propStats !! vendor = Some row ∧ row !! s = Some code ∧
    contains_flag code.

(** The table has no cell for the entry. *)
Definition missing (v : option string) : Prop :=
  ∃ s, v = Some s ∧ Js.truthy_str v = true ∧
    (propStats !! vendor ≫= (.!! s)) = None.
End Entries.

(** The scan of [vendor] reaches an entry without a cell: every entry of
    the slice before it lets the loop go on. *)
Definition reaches_missing_cell (vdb : list (string * VendorInfo))
    (propStats : gmap string (gmap string string)) (versions : Z)
    (vendor : string) : Prop :=
  ∃ info pre v post,
    obj_get vdb vendor = Some info ∧
    Js.slice versions (vi_versions info) = (pre ++ v :: post)%list ∧
    Forall (passes propStats vendor) pre ∧
    missing propStats vendor v.

(** The scan of [vendor] reaches an entry whose code has the flag. *)
Definition reaches_flag (vdb : list (string * VendorInfo))
    (propStats : gmap string (gmap string string)) (versions : Z)
    (vendor : string) : Prop :=
  ∃ info pre v post,
    obj_get vdb vendor = Some info ∧
    Js.slice versions (vi_versions info) = (pre ++ v :: post)%list ∧
    Forall (passes propStats vendor) pre ∧
    flagged propStats vendor v.

(** The call reaches a missing cell while it scans some vendor of the
    effective vendor list. *)
Definition raises_on (prefs : preferences) (st : state)
    (property : string) : Prop :=
  ∃ css propStats vendor,
    cssDB st = Some css ∧ css !! property = Some propStats ∧
    vendor ∈ getVendorsList prefs st ∧
    reaches_missing_cell (default [] (vendorsDB st)) propStats
      (getVersionSlice prefs st) vendor.

(** [resolvePrefixes] answers [null] under one of these three conditions. *)
Definition not_applicable (prefs : preferences) (st : state)
    (property : string) : Prop :=
  caniuse_enabled prefs = false ∨
  cssDB st = None ∨
  ∃ css, cssDB st = Some css ∧ css !! property = None.

(** * Properties *)

(** ** The reference host sorts *)

Lemma insert_sorted_perm cmp x l : insert_sorted cmp x l ≡ₚ x :: l.
Proof.
  induction l as [|y l IH]; simpl; [done|].
  destruct (cmp x y <=? 0); [done|].
  rewrite IH. apply perm_swap.
Qed.

Lemma insertion_sort_perm cmp l : insertion_sort cmp l ≡ₚ l.
Proof.
  induction l as [|x l IH]; simpl; [done|].
  rewrite insert_sorted_perm. by f_equiv.
Qed.

Section RankedComparator.
Variables (cmp : comparator) (rank : string → Z).

Definition ranked_on (l : list string) : Prop :=
  ∀ a b, a ∈ l → b ∈ l → Z.sgn (cmp a b) = Z.sgn (rank a - rank b).

Lemma ranked_on_le l a b :
  ranked_on l → a ∈ l → b ∈ l → (cmp a b <= 0 ↔ rank a <= rank b).
Proof. intros Hr Ha Hb. specialize (Hr a b Ha Hb). lia. Qed.

Lemma ranked_on_perm l l' : l ≡ₚ l' → ranked_on l → ranked_on l'.
Proof.
  intros Hp Hr a b Ha Hb. apply Hr; by rewrite Hp.
Qed.

Lemma ranked_on_cons x l : ranked_on (x :: l) → ranked_on l.
Proof. intros Hr a b Ha Hb. apply Hr; by right. Qed.

Lemma insert_sorted_sorted x l :
  ranked_on (x :: l) →
  StronglySorted (λ a b, cmp a b <= 0) l →
  StronglySorted (λ a b, cmp a b <= 0) (insert_sorted cmp x l).
Proof.
  intros Hr Hs. induction Hs as [|y l Hs IH Hy]; simpl.
  { repeat constructor. }
  destruct (Z.leb_spec (cmp x y) 0) as [Hxy|Hxy].
  - constructor; [by constructor|].
    constructor; [done|].
    rewrite Forall_forall in Hy |- *. intros z Hz.
    apply (ranked_on_le (x :: y :: l)); [done|by left|by do 2 right|].
    assert (rank x <= rank y).
    { apply (ranked_on_le (x :: y :: l)); [done|by left|by right; left|done]. }
    assert (rank y <= rank z); [|lia].
    apply (ranked_on_le (x :: y :: l)); [done|by right; left|by do 2 right|].
    by apply Hy.
  - constructor.
    + apply IH. intros a b Ha Hb. apply Hr.
      * inv Ha; [by left|by do 2 right].
      * inv Hb; [by left|by do 2 right].
    + rewrite Forall_forall in Hy |- *. intros z Hz.
      rewrite insert_sorted_perm in Hz.
      apply elem_of_cons in Hz as [->|Hz]; [|by apply Hy].
      apply (ranked_on_le (x :: y :: l)); [done|by right; left|by left|].
      assert (¬ rank x <= rank y); [|lia].
      rewrite <-(ranked_on_le (x :: y :: l)); [lia|done|by left|by right; left].
Qed.

Lemma insertion_sort_sorted l :
  ranked_on l → StronglySorted (λ a b, cmp a b <= 0) (insertion_sort cmp l).
Proof.
  induction l as [|x l IH]; intros Hr; simpl; [constructor|].
  apply insert_sorted_sorted.
  - eapply ranked_on_perm; [|exact Hr].
    f_equiv. symmetry. apply insertion_sort_perm.
  - apply IH. by eapply ranked_on_cons.
Qed.
End RankedComparator.

(** The reference host: insertion sort, and the one-text decoder. *)
Definition reference_engine : Engine.
Proof.
  refine {| JSON_parse := decode_empty_only; sort := insertion_sort |}.
  - intros cmp l _. apply insertion_sort_perm.
  - intros cmp l [rank Hr]. by apply (insertion_sort_sorted cmp rank).
Defined.

(** The worked examples below run on the reference host. *)
#[local] Existing Instance reference_engine.

(** ** The lodash functions *)

Lemma includes_elem_of l x : Lodash.includes l x = true ↔ x ∈ l.
Proof.
  unfold Lodash.includes. rewrite existsb_exists. split.
  - intros (y & Hy & Heq). apply String.eqb_eq in Heq as ->.
    by apply list_elem_of_In.
  - intros Hx. exists x. split; [by apply list_elem_of_In|apply String.eqb_refl].
Qed.

Lemma includes_false l x : Lodash.includes l x = false ↔ x ∉ l.
Proof.
  rewrite <-includes_elem_of. destruct (Lodash.includes l x); intuition congruence.
Qed.

Lemma elem_of_unique_from seen l x :
  x ∈ Lodash.unique_from seen l ↔ x ∈ l ∧ x ∉ seen.
Proof.
  revert seen. induction l as [|y l IH]; intros seen; simpl.
  { rewrite elem_of_nil. tauto. }
  destruct (Lodash.includes seen y) eqn:Hy.
  - apply includes_elem_of in Hy. rewrite IH, elem_of_cons.
    intuition congruence.
  - apply includes_false in Hy.
    rewrite !elem_of_cons, IH, elem_of_cons.
    destruct (decide (x = y)); intuition congruence.
Qed.

Lemma NoDup_unique_from seen l : NoDup (Lodash.unique_from seen l).
Proof.
  revert seen. induction l as [|y l IH]; intros seen; simpl.
  { constructor. }
  destruct (Lodash.includes seen y); [done|].
  constructor; [|done].
  rewrite elem_of_unique_from, elem_of_cons. tauto.
Qed.

Lemma elem_of_unique l x : x ∈ Lodash.unique l ↔ x ∈ l.
Proof.
  unfold Lodash.unique. rewrite elem_of_unique_from, elem_of_nil. tauto.
Qed.

Lemma NoDup_unique l : NoDup (Lodash.unique l).
Proof. apply NoDup_unique_from. Qed.



Lemma elem_of_intersection a b x :
  x ∈ Lodash.intersection a b ↔ x ∈ a ∧ x ∈ b.
Proof.
  unfold Lodash.intersection.
  rewrite elem_of_unique, list_elem_of_filter, includes_elem_of. tauto.
Qed.

Lemma indexOf_from_range i l x :
  Lodash.indexOf_from i l x = -1 ∨
  i <= Lodash.indexOf_from i l x < i + Z.of_nat (length l).
Proof.
  revert i. induction l as [|y l IH]; intros i; simpl; [by left|].
  destruct (String.eqb y x); [right; lia|].
  destruct (IH (i + 1)) as [->|?]; [by left|right; lia].
Qed.

Lemma indexOf_from_absent i l x :
  0 <= i → (Lodash.indexOf_from i l x = -1 ↔ x ∉ l).
Proof.
  revert i. induction l as [|y l IH]; intros i Hi; simpl.
  { split; [intros _; apply not_elem_of_nil|done]. }
  destruct (String.eqb_spec y x) as [->|Hne].
  - split; [lia|]. intros []. by left.
  - rewrite IH by lia. rewrite not_elem_of_cons. intuition congruence.
Qed.

Lemma indexOf_from_lookup i l x :
  0 <= i → x ∈ l →
  l !! Z.to_nat (Lodash.indexOf_from i l x - i) = Some x.
Proof.
  revert i. induction l as [|y l IH]; intros i Hi Hx; simpl.
  { by apply elem_of_nil in Hx. }
  destruct (String.eqb_spec y x) as [->|Hne].
  - by replace (i - i) with 0 by lia.
  - apply elem_of_cons in Hx as [->|Hx]; [done|].
    specialize (IH (i + 1) ltac:(lia) Hx).
    destruct (indexOf_from_range (i + 1) l x) as [Hr|Hr].
    { apply indexOf_from_absent in Hr; [done|lia]. }
    replace (Z.to_nat (Lodash.indexOf_from (i + 1) l x - i))
      with (S (Z.to_nat (Lodash.indexOf_from (i + 1) l x - (i + 1)))) by lia.
    done.
Qed.

Lemma indexOf_absent l x : Lodash.indexOf l x = -1 ↔ x ∉ l.
Proof. by apply indexOf_from_absent. Qed.

Lemma indexOf_present l x :
  x ∈ l →
  0 <= Lodash.indexOf l x < Z.of_nat (length l) ∧
  l !! Z.to_nat (Lodash.indexOf l x) = Some x.
Proof.
  intros Hx. unfold Lodash.indexOf. split.
  - destruct (indexOf_from_range 0 l x) as [Hr|Hr]; [|lia].
    by apply indexOf_absent in Hr.
  - pose proof (indexOf_from_lookup 0 l x ltac:(lia) Hx) as Hl.
    by rewrite Z.sub_0_r in Hl.
Qed.

(** ** Host functions *)

Lemma lnot_truthy n : Js.truthy (Z.lnot n) = negb (n =? -1).
Proof.
  unfold Js.truthy, Z.lnot. f_equal.
  destruct (Z.eqb_spec (Z.pred (- n)) 0), (Z.eqb_spec n (-1)); lia.
Qed.

Lemma slice_nonneg {A} (start : Z) (l : list A) :
  0 <= start → Js.slice start l = drop (Z.to_nat start) l.
Proof.
  intros Hs. unfold Js.slice.
  destruct (Z.ltb_spec start 0); [lia|].
  destruct (Z.min_spec start (Z.of_nat (length l))) as [[? ->]|[? ->]]; [done|].
  rewrite Nat2Z.id, drop_all. symmetry. apply drop_ge. lia.
Qed.

Lemma slice_last {A} (l : list A) :
  Js.slice (-1) l = match last l with Some x => [x] | None => [] end.
Proof.
  unfold Js.slice. simpl (_ <? _).
  destruct l as [|x l _] using rev_ind; [done|].
  rewrite last_snoc, length_app. simpl.
  replace (Z.to_nat _) with (length l) by lia.
  by rewrite drop_app_length.
Qed.

(** [indexOf('x')] finds the flag wherever it stands in the code. *)
Lemma index_flag_cons c r :
  String.index 0 "x" (String c r) =
    if Ascii.eqb c "x" then Some 0%nat
    else S <$> String.index 0 "x" r.
Proof.
  change (String.index 0 "x" (String c r)) with
    (if (if ascii_dec "x" c then String.prefix "" r else false)
     then Some 0%nat
     else match String.index 0 "x" r with
          | Some n => Some (S n)
          | None => None
          end).
  destruct (ascii_dec "x" c) as [<-|Hne].
  - by destruct r.
  - destruct (Ascii.eqb_spec c "x") as [Heq|_]; [by subst; destruct Hne|].
    by destruct (String.index 0 "x" r).
Qed.

Lemma index_flag_Some code :
  is_Some (String.index 0 "x" code) ↔ contains_flag code.
Proof.
  induction code as [|c r IH].
  - simpl. split; [by intros [? ?]|].
    intros (before & after & Heq). by destruct before.
  - rewrite index_flag_cons.
    destruct (Ascii.eqb_spec c "x") as [->|Hne].
    + split; [|by intros; eexists]. intros _. by exists "", r.
    + rewrite fmap_is_Some, IH. split.
      * intros (before & after & ->). by exists (String c before), after.
      * intros (before & after & Heq). destruct before as [|c' before].
        { cbv [String.append] in Heq. congruence. }
        cbv [String.append] in Heq. injection Heq as -> ->.
        by exists before, after.
Qed.

Lemma flag_test code :
  Js.truthy (Z.lnot (Js.str_indexOf code "x")) = true ↔ contains_flag code.
Proof.
  rewrite lnot_truthy, <-index_flag_Some. unfold Js.str_indexOf.
  destruct (String.index 0 "x" code) as [n|].
  - split; [by intros; eexists|]. intros _.
    destruct (Z.eqb_spec (Z.of_nat n) (-1)); [lia|done].
  - split; [done|]. by intros [? ?].
Qed.

Lemma flag_test_false code :
  Js.truthy (Z.lnot (Js.str_indexOf code "x")) = false ↔ ¬ contains_flag code.
Proof.
  rewrite <-flag_test.
  destruct (Js.truthy _); intuition congruence.
Qed.

(** ** One vendor's scan *)

Section Scan.
Variables (propStats : gmap string (gmap string string)) (vendor : string).

Local Abbreviation passes := (passes propStats vendor).
Local Abbreviation flagged := (flagged propStats vendor).
Local Abbreviation missing := (missing propStats vendor).

Lemma scan_cons_passes v rest :
  passes v →
  scanVersions propStats vendor (v :: rest) =
  scanVersions propStats vendor rest.
Proof.
  intros [Hf|(s & row & code & -> & Hrow & Hcode & Hflag)]; simpl.
  { by rewrite Hf. }
  destruct (negb _); [done|].
  rewrite Hrow. simpl. rewrite Hcode. simpl.
  apply flag_test_false in Hflag. by rewrite Hflag.
Qed.

Lemma scan_cons_flagged v rest :
  flagged v → scanVersions propStats vendor (v :: rest) = Ok true.
Proof.
  intros (s & row & code & -> & Ht & Hrow & Hcode & Hflag); simpl in *.
  rewrite Ht. simpl. rewrite Hrow. simpl. rewrite Hcode. simpl.
  apply flag_test in Hflag. by rewrite Hflag.
Qed.

Lemma scan_cons_missing v rest :
  missing v → scanVersions propStats vendor (v :: rest) = Throw TypeError.
Proof.
  intros (s & -> & Ht & Hcell); simpl in *.
  rewrite Ht. simpl.
  destruct (propStats !! vendor) as [row|]; [|done]. simpl in *.
  by rewrite Hcell.
Qed.

Lemma entry_cases v : passes v ∨ flagged v ∨ missing v.
Proof.
  destruct (Js.truthy_str v) eqn:Ht; [|by left; left].
  destruct v as [s|]; [|done].
  destruct (propStats !! vendor) as [row|] eqn:Hrow.
  2:{ right; right. exists s. by rewrite Hrow. }
  destruct (row !! s) as [code|] eqn:Hcode.
  2:{ right; right. exists s. by rewrite Hrow. }
  destruct (Js.truthy (Z.lnot (Js.str_indexOf code "x"))) eqn:Hflag.
  - right; left. apply flag_test in Hflag. by exists s, row, code.
  - left; right. apply flag_test_false in Hflag. by exists s, row, code.
Qed.

Lemma scan_passes vs :
  Forall passes vs → scanVersions propStats vendor vs = Ok false.
Proof.
  induction 1 as [|v vs Hv _ IH]; [done|]. by rewrite scan_cons_passes.
Qed.

Lemma scan_app_passes pre vs :
  Forall passes pre →
  scanVersions propStats vendor (pre ++ vs)%list =
  scanVersions propStats vendor vs.
Proof.
  induction 1 as [|v pre Hv _ IH]; [done|].
  by rewrite <-app_comm_cons, scan_cons_passes.
Qed.

(** What the scan returns tells which entry ended it. *)
Lemma scan_hit_inv vs :
  scanVersions propStats vendor vs = Ok true →
  ∃ pre v post, vs = (pre ++ v :: post)%list ∧ Forall passes pre ∧ flagged v.
Proof.
  induction vs as [|v vs IH]; [done|]. intros Hs.
  destruct (entry_cases v) as [Hv|[Hv|Hv]].
  - rewrite scan_cons_passes in Hs by done.
    destruct (IH Hs) as (pre & v' & post & -> & Hpre & Hv').
    exists (v :: pre), v', post. split_and!; [done|by constructor|done].
  - by exists [], v, vs.
  - by rewrite scan_cons_missing in Hs.
Qed.

Lemma scan_throw_inv vs e :
  scanVersions propStats vendor vs = Throw e →
  e = TypeError ∧
  ∃ pre v post, vs = (pre ++ v :: post)%list ∧ Forall passes pre ∧ missing v.
Proof.
  induction vs as [|v vs IH]; [done|]. intros Hs.
  destruct (entry_cases v) as [Hv|[Hv|Hv]].
  - rewrite scan_cons_passes in Hs by done.
    destruct (IH Hs) as (-> & pre & v' & post & -> & Hpre & Hv').
    split; [done|].
    exists (v :: pre), v', post. split_and!; [done|by constructor|done].
  - by rewrite scan_cons_flagged in Hs.
  - rewrite scan_cons_missing in Hs by done. split; [congruence|].
    by exists [], v, vs.
Qed.

Lemma scan_miss_inv vs :
  scanVersions propStats vendor vs = Ok false → Forall passes vs.
Proof.
  induction vs as [|v vs IH]; [constructor|]. intros Hs.
  destruct (entry_cases v) as [Hv|[Hv|Hv]].
  - rewrite scan_cons_passes in Hs by done. constructor; auto.
  - by rewrite scan_cons_flagged in Hs.
  - by rewrite scan_cons_missing in Hs.
Qed.

End Scan.

(** ** The loop over the vendors *)

Lemma obj_get_is_Some {V} (o : list (string * V)) k :
  is_Some (obj_get o k) ↔ k ∈ Lodash.keys o.
Proof.
  unfold Lodash.keys. induction o as [|[k' v] o IH]; simpl.
  { rewrite elem_of_nil. split; [by intros [? ?]|done]. }
  rewrite elem_of_cons. destruct (String.eqb_spec k' k) as [->|Hne].
  - split; [by left|by intros; eexists].
  - rewrite IH. intuition congruence.
Qed.

Section Vendors.
Variables (vdb : list (string * VendorInfo))
          (propStats : gmap string (gmap string string))
          (versions : Z).

Lemma visitVendor_cases prefixes vendor info :
  obj_get vdb vendor = Some info →
  (visitVendor vdb propStats versions prefixes vendor
     = Ok (prefixes ++ [vi_prefix info])%list
   ∧ reaches_flag vdb propStats versions vendor) ∨
  (visitVendor vdb propStats versions prefixes vendor = Ok prefixes
   ∧ Forall (passes propStats vendor)
            (Js.slice versions (vi_versions info))) ∨
  (visitVendor vdb propStats versions prefixes vendor = Throw TypeError
   ∧ reaches_missing_cell vdb propStats versions vendor).
Proof.
  intros Hinfo. unfold visitVendor. rewrite Hinfo. simpl.
  destruct (scanVersions propStats vendor
              (Js.slice versions (vi_versions info))) as [[]|e] eqn:Hs; simpl.
  - left. split; [done|].
    apply scan_hit_inv in Hs as (pre & v & post & ? & ? & ?).
    by exists info, pre, v, post.
  - right; left. split; [done|]. by apply scan_miss_inv.
  - right; right.
    apply scan_throw_inv in Hs as (-> & pre & v & post & ? & ? & ?).
    split; [done|]. by exists info, pre, v, post.
Qed.

Lemma reaches_flag_not_missing vendor :
  reaches_flag vdb propStats versions vendor →
  ¬ reaches_missing_cell vdb propStats versions vendor.
Proof.
  intros (info & pre & v & post & Hinfo & Hsl & Hpre & Hv)
         (info' & pre' & v' & post' & Hinfo' & Hsl' & Hpre' & Hv').
  assert (info' = info) as -> by congruence.
  assert (scanVersions propStats vendor
            (Js.slice versions (vi_versions info)) = Ok true) as H1.
  { by rewrite Hsl, scan_app_passes, scan_cons_flagged. }
  rewrite Hsl', scan_app_passes, scan_cons_missing in H1 by done. done.
Qed.

Lemma passes_not_missing vendor info :
  obj_get vdb vendor = Some info →
  Forall (passes propStats vendor) (Js.slice versions (vi_versions info)) →
  ¬ reaches_missing_cell vdb propStats versions vendor.
Proof.
  intros Hinfo Hall (info' & pre' & v' & post' & Hinfo' & Hsl' & Hpre' & Hv').
  assert (info' = info) as -> by congruence.
  apply scan_passes in Hall.
  rewrite Hsl', scan_app_passes, scan_cons_missing in Hall by done. done.
Qed.

(** The loop raises exactly when the scan of some vendor does. *)
Lemma eachVendor_throw prefixes vendors e :
  Forall (λ v, v ∈ Lodash.keys vdb) vendors →
  eachVendor vdb propStats versions prefixes vendors = Throw e ↔
  e = TypeError ∧
  ∃ vendor, vendor ∈ vendors ∧
    reaches_missing_cell vdb propStats versions vendor.
Proof.
  intros Hk. revert prefixes.
  induction Hk as [|vendor vendors Hv _ IH]; intros prefixes; simpl.
  { split; [done|]. intros (_ & ? & []%elem_of_nil & _). }
  apply obj_get_is_Some in Hv as [info Hinfo].
  destruct (visitVendor_cases prefixes vendor info Hinfo)
    as [[-> Hc]|[[-> Hc]|[-> Hc]]]; simpl.
  - rewrite IH. f_equiv. split.
    + intros (v & ? & ?). exists v. split; [by right|done].
    + intros (v & [->|?]%elem_of_cons & Hm); [|by exists v].
      by apply reaches_flag_not_missing in Hc.
  - rewrite IH. f_equiv. split.
    + intros (v & ? & ?). exists v. split; [by right|done].
    + intros (v & [->|?]%elem_of_cons & Hm); [|by exists v].
      by eapply passes_not_missing in Hc.
  - split; [intros [= <-]|by intros [-> _]].
    split; [done|]. exists vendor. split; [by left|done].
Qed.

(** Every prefix the loop adds is the prefix of a vendor whose scan
    reached the flag, and conversely. *)
Lemma eachVendor_result prefixes vendors l :
  Forall (λ v, v ∈ Lodash.keys vdb) vendors →
  eachVendor vdb propStats versions prefixes vendors = Ok l →
  ∀ p, p ∈ l ↔
    p ∈ prefixes ∨
    ∃ vendor info, vendor ∈ vendors ∧ obj_get vdb vendor = Some info ∧
      vi_prefix info = p ∧ reaches_flag vdb propStats versions vendor.
Proof.
  intros Hk. revert prefixes.
  induction Hk as [|vendor vendors Hv _ IH]; intros prefixes; simpl.
  { intros [= <-] p. split; [by left|].
    intros [?|(? & ? & []%elem_of_nil & _)]; done. }
  apply obj_get_is_Some in Hv as [info Hinfo].
  destruct (visitVendor_cases prefixes vendor info Hinfo)
    as [[-> Hc]|[[-> Hc]|[-> Hc]]]; simpl; [| |done].
  - intros Hl p. rewrite (IH _ Hl), elem_of_app, list_elem_of_singleton.
    split.
    + intros [[?| ->]|(v & i & ? & ? & ? & ?)]; [by left| |].
      * right. exists vendor, info. split_and!; [by left|done..].
      * right. exists v, i. split_and!; [by right|done..].
    + intros [?|(v & i & [->|?]%elem_of_cons & Hi & Hp & Hr)].
      * by left; left.
      * left; right. congruence.
      * right. by exists v, i.
  - intros Hl p. rewrite (IH _ Hl). split.
    + intros [?|(v & i & ? & ? & ? & ?)]; [by left|].
      right. exists v, i. split_and!; [by right|done..].
    + intros [?|(v & i & [->|?]%elem_of_cons & Hi & Hp & Hr)].
      * by left.
      * exfalso.
        destruct Hr as (info' & pre & v' & post & Hinfo' & Hsl & Hpre & Hv').
        assert (info' = info) as -> by congruence.
        apply scan_passes in Hc.
        rewrite Hsl, scan_app_passes, scan_cons_flagged in Hc by done. done.
      * right. by exists v, i.
Qed.
End Vendors.

Lemma getVendorsList_known prefs st :
  Forall (λ v, v ∈ Lodash.keys (default [] (vendorsDB st)))
         (getVendorsList prefs st).
Proof.
  apply Forall_forall. intros v. unfold getVendorsList.
  destruct (caniuse_vendors prefs) as [vendors|]; [|done].
  case_bool_decide; [done|].
  rewrite elem_of_intersection. tauto.
Qed.

(** ** The resolver *)

Lemma compare_lengths_consistent l : consistent compare_lengths l.
Proof.
  exists (λ a, - Z.of_nat (String.length a)). intros a b _ _.
  unfold compare_lengths. f_equal. lia.
Qed.

Lemma StronglySorted_weaken {A} (R R' : A → A → Prop) l :
  (∀ a b, a ∈ l → b ∈ l → R a b → R' a b) →
  StronglySorted R l → StronglySorted R' l.
Proof.
  intros HR Hs. induction Hs as [|x l _ IH Hx]; constructor.
  - apply IH. intros a b Ha Hb. apply HR; by right.
  - rewrite Forall_forall in Hx |- *. intros y Hy.
    apply HR; [by left|by right|by apply Hx].
Qed.

Section Resolver.
Context `{Engine}.

(** The three ways a call can end. *)
Lemma resolvePrefixes_cases prefs st property :
  (not_applicable prefs st property ∧
   resolvePrefixes prefs st property = Ok None) ∨
  (¬ not_applicable prefs st property ∧ ¬ raises_on prefs st property ∧
   ∃ css propStats prefixes,
     cssDB st = Some css ∧ css !! property = Some propStats ∧
     eachVendor (default [] (vendorsDB st)) propStats
       (getVersionSlice prefs st) [] (getVendorsList prefs st) = Ok prefixes ∧
     resolvePrefixes prefs st property =
       Ok (Some (sort compare_lengths (Lodash.unique prefixes)))) ∨
  (¬ not_applicable prefs st property ∧ raises_on prefs st property ∧
   resolvePrefixes prefs st property = Throw TypeError).
Proof.
  unfold resolvePrefixes, not_applicable.
  destruct (caniuse_enabled prefs) eqn:Hen; simpl; [|by left; split; [left|]].
  destruct (cssDB st) as [css|] eqn:Hcss; [|by left; split; [right; left|]].
  destruct (css !! property) as [propStats|] eqn:Hprop.
  2:{ left. split; [|done]. right; right. by exists css. }
  assert (¬ (true = false ∨ Some css = None ∨
             ∃ css0, Some css = Some css0 ∧ css0 !! property = None)) as Happ.
  { intros [?|[?|(css0 & [= <-] & ?)]]; congruence. }
  right.
  destruct (eachVendor (default [] (vendorsDB st)) propStats
              (getVersionSlice prefs st) [] (getVendorsList prefs st))
    as [prefixes|e] eqn:He; simpl.
  - left. split; [done|]. split; [|by exists css, propStats, prefixes].
    intros (css' & propStats' & vendor & Hcss' & Hprop' & Hv & Hr).
    rewrite Hcss in Hcss'. injection Hcss' as <-.
    rewrite Hprop in Hprop'. injection Hprop' as <-.
    assert (eachVendor (default [] (vendorsDB st)) propStats
              (getVersionSlice prefs st) [] (getVendorsList prefs st)
            = Throw TypeError) as He'; [|congruence].
    apply eachVendor_throw; [apply getVendorsList_known|].
    split; [done|]. by exists vendor.
  - right. apply eachVendor_throw in He as (-> & vendor & Hv & Hr);
      [|apply getVendorsList_known].
    split; [done|]. split; [|done]. by exists css, propStats, vendor.
Qed.
End Resolver.

(** ** A small database to run the program on

    Two vendors, [A] and [B], with three versions each; the section
    [transforms2d] (the property [transform]) needs the prefix for [A] at
    [v2] only; three eras, listed out of order. *)

Module Sample.

Definition agents : list (string * agent) :=
  [("A", {| agent_prefix := "-a-";
            agent_versions := [Some "v1"; Some "v2"; Some "v3"] |});
   ("B", {| agent_prefix := "-b-";
            agent_versions := [Some "w1"; Some "w2"; Some "w3"] |})].

Definition rowA : gmap string string :=
  {[ "v1" := "y"; "v2" := "a x"; "v3" := "y" ]}.

Definition rowB : gmap string string :=
  {[ "w1" := "y"; "w2" := "y"; "w3" := "y" ]}.

Definition document (stats : gmap string (gmap string string)) : RawDatabase :=
  {| raw_agents := agents;
     raw_data := [("transforms2d", {| section_stats := stats |})];
     raw_eras := [("e1", "next"); ("e-1", "previous"); ("e0", "current")];
     raw_cats := Some {[ "CSS" := ["CSS"; "CSS3"] ]} |}.

Definition stats : gmap string (gmap string string) :=
  {[ "A" := rowA; "B" := rowB ]}.

Definition db : RawDatabase := document stats.




(** Five browsers, two of which share a prefix; four of them need their
    prefix for the transition properties at the only version they have,
    and the fifth has no version at all. *)
Definition browsers : RawDatabase :=
  let needs (v : string) : gmap string string := {[ v := "y x" ]} in
  {| raw_agents :=
       [("ie", {| agent_prefix := "-ms-"; agent_versions := [Some "10"] |});
        ("chrome", {| agent_prefix := "-webkit-";
                      agent_versions := [None; Some "30"] |});
        ("firefox", {| agent_prefix := "-moz-";
                       agent_versions := [Some "25"] |});
        ("safari", {| agent_prefix := "-webkit-";
                      agent_versions := [Some "7"] |});
        ("opera", {| agent_prefix := "-o-"; agent_versions := [] |})];
     raw_data :=
       [("css-transitions",
         {| section_stats :=
              {[ "ie" := needs "10"; "chrome" := needs "30";
                 "firefox" := needs "25"; "safari" := needs "7" ]} |})];
     raw_eras := [("e0", "current")];
     raw_cats := Some ∅ |}.

Definition loaded (d : RawDatabase) : state := (load (Doc d) initial).2.

(** The browsers again, in a document that has no [cats]. *)
Definition uncategorised : RawDatabase :=
  {| raw_agents := raw_agents browsers;
     raw_data := raw_data browsers;
     raw_eras := raw_eras browsers;
     raw_cats := None |}.

(** The state after [load(db)]. *)
Definition st : state := loaded db.

Definition prefs : preferences :=
  {| caniuse_enabled := true;
     caniuse_vendors := Some ["all"];
     caniuse_era := "e0" |}.

Definition prefs_only (vendors : list string) : preferences :=
  {| caniuse_enabled := true;
     caniuse_vendors := Some vendors;
     caniuse_era := "e0" |}.

Definition prefs_era (era : string) : preferences :=
  {| caniuse_enabled := true;
     caniuse_vendors := Some ["all"];
     caniuse_era := era |}.

Example era_order : erasDB (loaded db) = Some ["e-1"; "e0"; "e1"].
Proof. reflexivity. Qed.

Example transform_needs_a :
  resolvePrefixes prefs (loaded db) "transform" = Ok (Some ["-a-"]).
Proof. vm_compute. reflexivity. Qed.

Example only_B_needs_none :
  resolvePrefixes (prefs_only ["B"]) (loaded db) "transform" = Ok (Some []).
Proof. vm_compute. reflexivity. Qed.

Example unknown_property : resolvePrefixes prefs (loaded db) "foo" = Ok None.
Proof. vm_compute. reflexivity. Qed.


End Sample.

(** ** The state that [load] leaves *)





(** ** C1: when the answer is [null] *)




(** ** C2: the scan of one vendor *)

(** The flag is looked for inside the code: a code that combines several
    marks has it, the codes [y] and [n] do not. *)
Example combined_code_has_flag : contains_flag "a x d #1".
Proof. by exists "a ", " d #1". Qed.

Example plain_codes_have_no_flag : ¬ contains_flag "y" ∧ ¬ contains_flag "n".
Proof. split; apply flag_test_false; reflexivity. Qed.



(** ** C3: a version without a support code *)




(** ** C4: the returned list *)

(** C4: a returned list has no repeated prefix and is sorted by length,
    longest first. *)
Theorem result_sorted_without_duplicates `{Engine} prefs st property l :
  resolvePrefixes prefs st property = Ok (Some l) →
  NoDup l ∧
  StronglySorted (λ a b, (String.length b <= String.length a)%nat) l.
Proof.
  intros Hl.
  destruct (resolvePrefixes_cases prefs st property)
    as [[_ Hr]|[(_ & _ & css & ps & pfx & _ & _ & _ & Hr)|(_ & _ & Hr)]];
    [congruence| |congruence].
  rewrite Hr in Hl. injection Hl as <-. split.
  - rewrite sort_perm by apply compare_lengths_consistent. apply NoDup_unique.
  - eapply StronglySorted_weaken;
      [|apply sort_sorted, compare_lengths_consistent].
    unfold compare_lengths. intros a b _ _. simpl. lia.
Qed.

Lemma result_sorted_without_duplicates_witness :
  resolvePrefixes Sample.prefs (Sample.loaded Sample.browsers) "transition"
    = Ok (Some ["-webkit-"; "-moz-"; "-ms-"]) ∧
  NoDup ["-webkit-"; "-moz-"; "-ms-"] ∧
  StronglySorted (λ a b, (String.length b <= String.length a)%nat)
    ["-webkit-"; "-moz-"; "-ms-"].
Proof.
  assert (resolvePrefixes Sample.prefs (Sample.loaded Sample.browsers)
            "transition" = Ok (Some ["-webkit-"; "-moz-"; "-ms-"])) as Hl
    by (vm_compute; reflexivity).
  split; [exact Hl|].
  exact (result_sorted_without_duplicates Sample.prefs
           (Sample.loaded Sample.browsers) "transition" _ Hl).
Defined.

(** ** C5: the effective vendor list *)

Lemma keys_obj_set {V} (o : list (string * V)) k v :
  Lodash.keys (obj_set o k v) =
    if bool_decide (k ∈ Lodash.keys o) then Lodash.keys o
    else (Lodash.keys o ++ [k])%list.
Proof.
  unfold Lodash.keys. induction o as [|[k' v'] o IH]; csimpl; [done|].
  destruct (String.eqb_spec k' k) as [->|Hne]; csimpl.
  - rewrite bool_decide_eq_true_2; [done|by left].
  - rewrite IH. case_bool_decide as Hk.
    + rewrite bool_decide_eq_true_2; [done|by right].
    + rewrite bool_decide_eq_false_2; [done|].
      rewrite not_elem_of_cons. split; [congruence|done].
Qed.

Lemma wf_obj_set {V} (o : list (string * V)) k v :
  wf_object o → wf_object (obj_set o k v).
Proof.
  unfold wf_object. intros Ho. rewrite keys_obj_set.
  case_bool_decide; [done|].
  apply NoDup_app. split_and!; [done| |apply NoDup_singleton].
  intros x Hx ->%list_elem_of_singleton. done.
Qed.

Lemma wf_parseVendors data : wf_object (parseVendors data).
Proof.
  unfold parseVendors.
  assert (wf_object ([] : list (string * VendorInfo))) as Hnil by constructor.
  revert Hnil. generalize ([] : list (string * VendorInfo)).
  induction (raw_agents data) as [|[name a] agents IH]; intros out Hout; simpl.
  { done. }
  apply IH. by apply wf_obj_set.
Qed.

(** Every call of [load] leaves a state whose vendor keys are distinct. *)
Lemma wf_state_parseDB `{Engine} data st :
  wf_state st → wf_state (parseDB data st).2.
Proof.
  intros Hst. unfold parseDB.
  destruct (decode data) as [d|e]; [|done].
  destruct (parseCSS d); apply wf_parseVendors.
Qed.

Lemma wf_state_initial : wf_state initial.
Proof. constructor. Qed.




(** ** C6 and C9: the starting era index *)

Lemma getVersionSlice_found prefs st :
  caniuse_era prefs ∈ default [] (erasDB st) →
  getVersionSlice prefs st
    = Lodash.indexOf (default [] (erasDB st)) (caniuse_era prefs).
Proof.
  intros Hin. unfold getVersionSlice. rewrite lnot_truthy, negb_involutive.
  destruct (Z.eqb_spec (Lodash.indexOf (default [] (erasDB st))
                          (caniuse_era prefs)) (-1)) as [Hix|]; [|done].
  by apply indexOf_absent in Hix.
Qed.

Lemma getVersionSlice_fallback prefs st :
  caniuse_era prefs ∉ default [] (erasDB st) →
  getVersionSlice prefs st = Lodash.indexOf (default [] (erasDB st)) "e-2".
Proof.
  intros Hin. unfold getVersionSlice. rewrite lnot_truthy, negb_involutive.
  apply indexOf_absent in Hin. by rewrite Hin.
Qed.

Lemma considered_from {A} (start : Z) (k : nat) (l : list A) :
  0 <= start →
  (filter (λ p, start <= p.1) (imap (λ i x, (Z.of_nat (k + i), x)) l)).*2
    = drop (Z.to_nat start - k) l.
Proof.
  intros Hs. revert k. induction l as [|x l IH]; intros k; csimpl.
  { by rewrite drop_nil. }
  assert (imap ((λ i (x0 : A), (Z.of_nat (k + i), x0)) ∘ S) l
          = imap (λ i x0, (Z.of_nat (S k + i), x0)) l) as ->.
  { apply imap_ext. intros i y _. simpl. f_equal. lia. }
  rewrite filter_cons.
  case_decide as Hk; simpl in Hk; [rewrite fmap_cons|]; rewrite (IH (S k)).
  - replace (Z.to_nat start - k)%nat with 0%nat by lia. simpl. f_equal.
    replace (Z.to_nat start - S k)%nat with 0%nat by lia. done.
  - replace (Z.to_nat start - k)%nat with (S (Z.to_nat start - S k)) by lia.
    done.
Qed.

Lemma spec_considered_drop {A} (start : Z) (l : list A) :
  0 <= start → spec_considered start l = drop (Z.to_nat start) l.
Proof.
  intros Hs. unfold spec_considered.
  rewrite <-(Nat.sub_0_r (Z.to_nat start)). by rewrite <-(considered_from _ 0).
Qed.

(** C6, as the specification states it, fails when neither the configured
    era nor [e-2] is an era of the database: the index is then -1, every
    era is at or after it, and yet only the newest one is looked at: the
    flag of [A] at [v2] goes unseen. *)
Lemma unknown_eras_hide_older_versions :
  getVersionSlice (Sample.prefs_era "e7") Sample.st = -1 ∧
  spec_considered (-1) [Some "v1"; Some "v2"; Some "v3"]
    = [Some "v1"; Some "v2"; Some "v3"] ∧
  Js.slice (-1) [Some "v1"; Some "v2"; Some "v3"] = [Some "v3"] ∧
  flagged Sample.stats "A" (Some "v2") ∧
  resolvePrefixes (Sample.prefs_era "e7") Sample.st "transform" = Ok (Some []).
Proof.
  split_and!; try (vm_compute; reflexivity).
  exists "v2", Sample.rowA, "a x". split_and!; try (vm_compute; reflexivity).
  by exists "a ", "".
Qed.

(** C6 (amended): the starting index is the position of the configured era
    in [erasDB] or, when it is not there, what the search for [e-2]
    returns; no error is raised.  When one of the two is an era of the
    database, the index is the position of that era, and the versions a
    scan looks at are exactly those at or after this index. *)
Theorem starting_era_index prefs st :
  let eras := default [] (erasDB st) in
  let start := getVersionSlice prefs st in
  (caniuse_era prefs ∈ eras →
     start = Lodash.indexOf eras (caniuse_era prefs) ∧
     eras !! Z.to_nat start = Some (caniuse_era prefs)) ∧
  (caniuse_era prefs ∉ eras → start = Lodash.indexOf eras "e-2") ∧
  (caniuse_era prefs ∉ eras → "e-2" ∈ eras →
     eras !! Z.to_nat start = Some "e-2") ∧
  (caniuse_era prefs ∈ eras ∨ "e-2" ∈ eras →
     0 <= start < Z.of_nat (length eras) ∧
     ∀ vs : list (option string),
       Js.slice start vs = drop (Z.to_nat start) vs ∧
       Js.slice start vs = spec_considered start vs).
Proof.
  intros eras start.
  assert (caniuse_era prefs ∈ eras →
          start = Lodash.indexOf eras (caniuse_era prefs)) as Hfound
    by apply getVersionSlice_found.
  assert (caniuse_era prefs ∉ eras → start = Lodash.indexOf eras "e-2")
    as Hfall by apply getVersionSlice_fallback.
  split_and!.
  - intros Hin. split; [by apply Hfound|].
    rewrite (Hfound Hin). by apply indexOf_present.
  - done.
  - intros Hout Hin. rewrite (Hfall Hout). by apply indexOf_present.
  - intros Hin.
    assert (0 <= start < Z.of_nat (length eras)) as Hrange.
    { destruct (decide (caniuse_era prefs ∈ eras)) as [Hera|Hera].
      - rewrite (Hfound Hera). by apply indexOf_present.
      - rewrite (Hfall Hera). apply indexOf_present. by destruct Hin. }
    split; [done|]. intros vs.
    rewrite spec_considered_drop by lia. split; apply slice_nonneg; lia.
Qed.

Lemma starting_era_index_witness :
  ("e0" ∈ default [] (erasDB Sample.st)) ∧
  getVersionSlice Sample.prefs Sample.st
    = Lodash.indexOf (default [] (erasDB Sample.st)) "e0" ∧
  default [] (erasDB Sample.st)
    !! Z.to_nat (getVersionSlice Sample.prefs Sample.st) = Some "e0" ∧
  Js.slice (getVersionSlice Sample.prefs Sample.st)
    [Some "v1"; Some "v2"; Some "v3"]
  = spec_considered (getVersionSlice Sample.prefs Sample.st)
      [Some "v1"; Some "v2"; Some "v3"].
Proof.
  assert ("e0" ∈ default [] (erasDB Sample.st)) as Hera.
  { refine (bool_decide_unpack _ _). vm_compute. exact I. }
  pose proof (starting_era_index Sample.prefs Sample.st)
    as (Hfound & _ & _ & Hwindow).
  split_and!; [exact Hera|exact (proj1 (Hfound Hera))
              |exact (proj2 (Hfound Hera))|].
  exact (proj2 (proj2 (Hwindow (or_introl Hera))
                  [Some "v1"; Some "v2"; Some "v3"])).
Defined.

(** C9, as stated, fails for a vendor with fewer than two versions: with
    the index at -1, the slice of [opera], which has no version, is empty,
    and the slice of [ie], which has one version, is its whole list. *)
Lemma newest_only_degenerate :
  getVersionSlice (Sample.prefs_era "e-7") (Sample.loaded Sample.browsers) = -1 ∧
  (∃ info,
     obj_get (default [] (vendorsDB (Sample.loaded Sample.browsers))) "opera"
       = Some info ∧
     Js.slice (-1) (vi_versions info) = []) ∧
  (∃ info,
     obj_get (default [] (vendorsDB (Sample.loaded Sample.browsers))) "ie"
       = Some info ∧
     Js.slice (-1) (vi_versions info) = vi_versions info).
Proof.
  split_and!; [vm_compute; reflexivity|..];
    eexists; split; vm_compute; reflexivity.
Qed.

(** C9 (amended): when neither the configured era nor [e-2] is an era of
    the database, the starting index is -1 and the slice scanned for a
    vendor is made of the last entry of the vendor's version list, when
    there is one; for a vendor with two versions or more this is neither
    the empty slice nor the whole list. *)
Theorem newest_era_only prefs st :
  caniuse_era prefs ∉ default [] (erasDB st) →
  "e-2" ∉ default [] (erasDB st) →
  getVersionSlice prefs st = -1 ∧
  ∀ vs : list (option string),
    Js.slice (getVersionSlice prefs st) vs
      = match last vs with Some v => [v] | None => [] end ∧
    ((2 <= length vs)%nat →
       Js.slice (getVersionSlice prefs st) vs ≠ [] ∧
       Js.slice (getVersionSlice prefs st) vs ≠ vs).
Proof.
  intros Hera Hdefault.
  assert (getVersionSlice prefs st = -1) as ->.
  { rewrite getVersionSlice_fallback by done. by apply indexOf_absent. }
  split; [done|]. intros vs. rewrite slice_last. split; [done|].
  destruct vs as [|v vs _] using rev_ind; [simpl; lia|].
  rewrite last_snoc, length_app. simpl. intros Hlen. split; [done|].
  intros Heq. apply (f_equal length) in Heq.
  rewrite length_app in Heq. simpl in Heq. lia.
Qed.

Lemma newest_era_only_witness :
  ("e7" ∉ default [] (erasDB Sample.st)) ∧
  ("e-2" ∉ default [] (erasDB Sample.st)) ∧
  getVersionSlice (Sample.prefs_era "e7") Sample.st = -1 ∧
  Js.slice (getVersionSlice (Sample.prefs_era "e7") Sample.st)
    [Some "v1"; Some "v2"; Some "v3"] = [Some "v3"].
Proof.
  assert ("e7" ∉ default [] (erasDB Sample.st)) as Hera.
  { refine (bool_decide_unpack _ _). vm_compute. exact I. }
  assert ("e-2" ∉ default [] (erasDB Sample.st)) as Hdefault.
  { refine (bool_decide_unpack _ _). vm_compute. exact I. }
  split_and!; [exact Hera|exact Hdefault|..].
  - exact (proj1 (newest_era_only (Sample.prefs_era "e7") Sample.st
                    Hera Hdefault)).
  - exact (proj1 (proj2 (newest_era_only (Sample.prefs_era "e7") Sample.st
                           Hera Hdefault)
                    [Some "v1"; Some "v2"; Some "v3"])).
Defined.

(** ** C7: the order of the eras *)

(** *** Numerals *)

Lemma digit_of_decimal c :
  is_digit c = true →
  Js.digit_of 10 c = Some (digit_value c) ∧ 0 <= digit_value c <= 9.
Proof.
  unfold is_digit, Js.digit_of, digit_value.
  intros [H1 H2]%andb_prop. apply Nat.leb_le in H1, H2.
  destruct (Z.leb_spec 48 (Z.of_nat (nat_of_ascii c))); [|lia].
  destruct (Z.leb_spec (Z.of_nat (nat_of_ascii c)) 57); [|lia]. simpl.
  destruct (Z.ltb_spec (Z.of_nat (nat_of_ascii c) - 48) 10); [|lia].
  split; [done|lia].
Qed.

Lemma digit_value_inj c1 c2 : digit_value c1 = digit_value c2 → c1 = c2.
Proof.
  unfold digit_value. intros Heq.
  rewrite <-(ascii_nat_embedding c1), <-(ascii_nat_embedding c2).
  f_equal. lia.
Qed.

Lemma all_digits_cons c r :
  all_digits (String c r) = true ↔ is_digit c = true ∧ all_digits r = true.
Proof. unfold all_digits. simpl. apply andb_true_iff. Qed.

Lemma parse_digits_acc acc s :
  all_digits s = true →
  Js.parse_digits 10 (Some acc) s
    = Some (acc * 10 ^ Z.of_nat (String.length s) + numeral_value s).
Proof.
  revert acc. induction s as [|c r IH]; intros acc Hs.
  { simpl. f_equal. lia. }
  apply all_digits_cons in Hs as [Hc Hr].
  cbn [Js.parse_digits]. destruct (digit_of_decimal c Hc) as [-> _].
  rewrite IH by done. apply (f_equal Some). cbn [numeral_value String.length].
  rewrite Nat2Z.inj_succ, Z.pow_succ_r by lia. simpl (default _ _). ring.
Qed.

Lemma parse_digits_numeral c r :
  all_digits (String c r) = true →
  Js.parse_digits 10 None (String c r) = Some (numeral_value (String c r)).
Proof.
  intros [Hc Hr]%all_digits_cons.
  cbn [Js.parse_digits]. destruct (digit_of_decimal c Hc) as [-> _].
  rewrite parse_digits_acc by done. apply (f_equal Some).
  cbn [numeral_value]. simpl (default _ _). ring.
Qed.

Lemma numeral_value_bound s :
  all_digits s = true →
  0 <= numeral_value s < 10 ^ Z.of_nat (String.length s).
Proof.
  induction s as [|c r IH]; intros Hs; [simpl; lia|].
  apply all_digits_cons in Hs as [Hc Hr].
  destruct (digit_of_decimal c Hc) as [_ Hd]. specialize (IH Hr).
  cbn [numeral_value String.length].
  rewrite Nat2Z.inj_succ, Z.pow_succ_r by lia. nia.
Qed.

Lemma numeral_value_leading c r :
  all_digits (String c r) = true → 1 <= digit_value c →
  10 ^ Z.of_nat (String.length r) <= numeral_value (String c r).
Proof.
  intros [Hc Hr]%all_digits_cons Hd.
  pose proof (numeral_value_bound r Hr). cbn [numeral_value]. nia.
Qed.

Lemma numeral_value_inj_length s1 s2 :
  all_digits s1 = true → all_digits s2 = true →
  String.length s1 = String.length s2 →
  numeral_value s1 = numeral_value s2 → s1 = s2.
Proof.
  revert s2. induction s1 as [|c1 r1 IH]; intros [|c2 r2] H1 H2 Hlen Hval;
    try done.
  apply all_digits_cons in H1 as [Hc1 Hr1].
  apply all_digits_cons in H2 as [Hc2 Hr2].
  injection Hlen as Hlen. cbn [numeral_value] in Hval. rewrite Hlen in Hval.
  pose proof (numeral_value_bound r1 Hr1) as B1.
  pose proof (numeral_value_bound r2 Hr2) as B2. rewrite Hlen in B1.
  assert (digit_value c1 = digit_value c2) as Hd by nia.
  rewrite (digit_value_inj c1 c2 Hd). f_equal. apply IH; [done..|]. nia.
Qed.

(** The shape of a canonical numeral. *)
Lemma canonical_numeral_inv s :
  canonical_numeral s = true →
  s = "0" ∨
  ∃ c r, s = String c r ∧ all_digits s = true ∧ 1 <= digit_value c.
Proof.
  destruct s as [|c r]; [done|].
  destruct (Ascii.eqb_spec c "0") as [->|Hc].
  - simpl. intros ->%String.eqb_eq. by left.
  - intros Hs. right. exists c, r. split; [done|].
    assert (all_digits (String c r) = true) as Hall.
    { destruct c as [[] [] [] [] [] [] [] []];
        try (by apply andb_prop in Hs as [? _]); done. }
    split; [done|].
    apply all_digits_cons in Hall as [Hd _].
    destruct (digit_of_decimal c Hd) as [_ Hrange].
    assert (digit_value c ≠ 0); [|lia].
    intros H0. apply Hc. apply digit_value_inj. by rewrite H0.
Qed.

Lemma canonical_numeral_positive s :
  canonical_numeral s = true → 0 <= numeral_value s ∧
  (s ≠ "0" → 1 <= numeral_value s).
Proof.
  intros [->|(c & r & -> & Hall & Hc)]%canonical_numeral_inv; [done|].
  pose proof (numeral_value_leading c r Hall Hc).
  assert (0 < 10 ^ Z.of_nat (String.length r)) by (apply Z.pow_pos_nonneg; lia).
  lia.
Qed.

Lemma canonical_numeral_inj s1 s2 :
  canonical_numeral s1 = true → canonical_numeral s2 = true →
  numeral_value s1 = numeral_value s2 → s1 = s2.
Proof.
  intros H1 H2 Hval.
  pose proof (canonical_numeral_positive s1 H1) as [_ P1].
  pose proof (canonical_numeral_positive s2 H2) as [_ P2].
  destruct (canonical_numeral_inv s1 H1) as [->|(c1 & r1 & -> & A1 & L1)].
  { destruct (decide (s2 = "0")) as [->|Hne]; [done|].
    specialize (P2 Hne). change (numeral_value "0") with 0 in Hval. lia. }
  destruct (canonical_numeral_inv s2 H2) as [->|(c2 & r2 & -> & A2 & L2)].
  { assert (String c1 r1 ≠ "0") as Hne.
    { intros [= -> ->]. change (digit_value "0") with 0 in L1. lia. }
    specialize (P1 Hne). change (numeral_value "0") with 0 in Hval. lia. }
  apply numeral_value_inj_length; [done..| |done].
  pose proof (numeral_value_leading c1 r1 A1 L1) as Lo1.
  pose proof (numeral_value_leading c2 r2 A2 L2) as Lo2.
  pose proof (numeral_value_bound _ A1) as B1.
  pose proof (numeral_value_bound _ A2) as B2.
  cbn [String.length] in *.
  rewrite Nat2Z.inj_succ, Z.pow_succ_r in B1, B2 by lia.
  destruct (Nat.lt_trichotomy (String.length r1) (String.length r2))
    as [Hlt|[Heq|Hlt]]; [exfalso|by rewrite Heq|exfalso].
  - assert (10 * 10 ^ Z.of_nat (String.length r1)
            <= 10 ^ Z.of_nat (String.length r2)); [|lia].
    rewrite <-Z.pow_succ_r by lia. apply Z.pow_le_mono_r; lia.
  - assert (10 * 10 ^ Z.of_nat (String.length r2)
            <= 10 ^ Z.of_nat (String.length r1)); [|lia].
    rewrite <-Z.pow_succ_r by lia. apply Z.pow_le_mono_r; lia.
Qed.

(** *** Era numbers *)

Lemma parse_unsigned_leading_digit c r :
  is_digit c = true → 1 <= digit_value c →
  Js.parse_unsigned (String c r) = Js.parse_digits 10 None (String c r).
Proof.
  intros Hc Hd.
  destruct c as [[] [] [] [] [] [] [] []];
    try discriminate Hc; try reflexivity.
  exfalso. change (1 <= 0) in Hd. lia.
Qed.

Lemma parseInt_leading_digit c r :
  is_digit c = true →
  Js.parseInt (String c r) = Js.parse_unsigned (String c r).
Proof.
  intros Hc.
  destruct c as [[] [] [] [] [] [] [] []];
    try discriminate Hc; reflexivity.
Qed.

Lemma parse_unsigned_numeral s :
  canonical_numeral s = true → Js.parse_unsigned s = Some (numeral_value s).
Proof.
  intros [->|(c & r & -> & Hall & Hc)]%canonical_numeral_inv; [done|].
  pose proof Hall as [Hd _]%all_digits_cons.
  rewrite parse_unsigned_leading_digit by done.
  by apply parse_digits_numeral.
Qed.

Lemma parseInt_numeral s :
  canonical_numeral s = true → Js.parseInt s = Some (numeral_value s).
Proof.
  intros Hs. rewrite <-parse_unsigned_numeral by done.
  destruct (canonical_numeral_inv s Hs) as [->|(c & r & -> & Hall & Hc)];
    [done|].
  apply all_digits_cons in Hall as [Hd _]. by apply parseInt_leading_digit.
Qed.

Lemma parseInt_negative s :
  canonical_numeral s = true →
  Js.parseInt (String "-" s) = Some (- numeral_value s).
Proof.
  intros Hs.
  change (Js.parseInt (String "-" s)) with (Z.opp <$> Js.parse_unsigned s).
  by rewrite parse_unsigned_numeral.
Qed.

(** A valid era identifier is [e] and a numeral, or [e-] and a numeral
    other than 0; its number is what the numeral says. *)
Lemma valid_era_inv k :
  valid_era k = true →
  ∃ s, canonical_numeral s = true ∧
    ((k = String "e" s ∧ era_number k = Some (numeral_value s)) ∨
     (k = String "e" (String "-" s) ∧ s ≠ "0" ∧
      era_number k = Some (- numeral_value s))).
Proof.
  destruct k as [|c k']; [done|].
  destruct (Ascii.eqb_spec c "e") as [->|Hc].
  2:{ intros Hk. exfalso.
      destruct c as [[] [] [] [] [] [] [] []]; try discriminate Hk.
      by apply Hc. }
  destruct k' as [|c2 r]; [done|].
  destruct (Ascii.eqb_spec c2 "-") as [->|Hc2].
  - simpl. intros [Hr Hne]%andb_prop. exists r. split; [done|]. right.
    split; [done|]. split.
    + intros ->. done.
    + by apply parseInt_negative.
  - intros Hk. exists (String c2 r).
    assert (canonical_numeral (String c2 r) = true) as Hcan.
    { destruct c2 as [[] [] [] [] [] [] [] []]; try exact Hk.
      by destruct Hc2. }
    split; [done|]. left. split; [done|]. by apply parseInt_numeral.
Qed.

Lemma era_number_inj a b :
  valid_era a = true → valid_era b = true →
  era_number a = era_number b → a = b.
Proof.
  intros (s & Hs & Ha)%valid_era_inv (t & Ht & Hb)%valid_era_inv Heq.
  pose proof (canonical_numeral_positive s Hs) as [Ps Ps'].
  pose proof (canonical_numeral_positive t Ht) as [Pt Pt'].
  destruct Ha as [[-> Ha]|(-> & Hs0 & Ha)], Hb as [[-> Hb]|(-> & Ht0 & Hb)];
    rewrite Ha, Hb in Heq; injection Heq as Heq.
  - f_equal. by apply canonical_numeral_inj.
  - specialize (Pt' Ht0). lia.
  - specialize (Ps' Hs0). lia.
  - do 2 f_equal. apply canonical_numeral_inj; [done..|lia].
Qed.

Lemma era_number_is_Some k : valid_era k = true → is_Some (era_number k).
Proof.
  intros (s & _ & [[_ ->]|(_ & _ & ->)])%valid_era_inv; by eexists.
Qed.

(** *** The sorted era list *)

Lemma compare_eras_valid a b :
  valid_era a = true → valid_era b = true →
  ∃ x y, era_number a = Some x ∧ era_number b = Some y ∧
         compare_eras a b = x - y.
Proof.
  intros [x Hx]%era_number_is_Some [y Hy]%era_number_is_Some.
  exists x, y. unfold compare_eras. by rewrite Hx, Hy.
Qed.

Lemma compare_eras_consistent l :
  Forall (λ k, valid_era k = true) l → consistent compare_eras l.
Proof.
  rewrite Forall_forall. intros Hl.
  exists (λ k, default 0 (era_number k)). intros a b Ha Hb.
  destruct (compare_eras_valid a b (Hl a Ha) (Hl b Hb))
    as (x & y & Hx & Hy & ->).
  by rewrite Hx, Hy.
Qed.

Lemma StronglySorted_NoDup_strict {A} (R : A → A → Prop) l :
  StronglySorted R l → NoDup l → StronglySorted (λ a b, R a b ∧ a ≠ b) l.
Proof.
  induction 1 as [|x l _ IH Hx]; intros Hnd; [constructor|].
  apply NoDup_cons in Hnd as [Hx' Hnd]. constructor; [by apply IH|].
  rewrite Forall_forall in Hx |- *. intros y Hy. split; [by apply Hx|].
  by intros ->.
Qed.

(** C7: for a valid [eras] section, the era list that [parseEra] builds is
    strictly increasing by the number read after the [e], holds every era
    identifier once, and is the same for every order in which the keys of
    the section are enumerated. *)
Theorem parseEra_strictly_increasing `{Engine} data :
  valid_eras (raw_eras data) →
  StronglySorted era_before (parseEra data) ∧
  NoDup (parseEra data) ∧
  parseEra data ≡ₚ Lodash.keys (raw_eras data) ∧
  ∀ data',
    Lodash.keys (raw_eras data') ≡ₚ Lodash.keys (raw_eras data) →
    parseEra data' = parseEra data.
Proof.
  intros [Hnd Hvalid]. unfold parseEra, wf_object in *.
  set (ks := Lodash.keys (raw_eras data)) in *.
  pose proof (sort_perm compare_eras ks (compare_eras_consistent ks Hvalid))
    as Hperm.
  pose proof (sort_sorted compare_eras ks (compare_eras_consistent ks Hvalid))
    as Hsorted.
  assert (NoDup (sort compare_eras ks)) as Hnd' by by rewrite Hperm.
  assert (∀ k, k ∈ sort compare_eras ks → valid_era k = true) as Hvalid'.
  { intros k. rewrite Hperm. apply (proj1 (Forall_forall _ _) Hvalid). }
  split_and!; [|done|done|].
  - eapply StronglySorted_weaken;
      [|apply StronglySorted_NoDup_strict; [exact Hsorted|exact Hnd']].
    intros a b Ha Hb [Hle Hne]. simpl in Hle.
    destruct (compare_eras_valid a b (Hvalid' a Ha) (Hvalid' b Hb))
      as (x & y & Hx & Hy & Hcmp).
    exists x, y. split_and!; [done..|].
    assert (x ≠ y); [|lia]. intros ->. apply Hne.
    apply era_number_inj; [by apply Hvalid'..|congruence].
  - intros data' Hkeys. set (ks' := Lodash.keys (raw_eras data')) in *.
    assert (Forall (λ k, valid_era k = true) ks') as Hvalid''.
    { by rewrite Hkeys. }
    apply (StronglySorted_unique_strong (λ a b, compare_eras a b <= 0)).
    + intros a b Ha Hb Hab Hba.
      rewrite sort_perm, Hkeys in Ha by by apply compare_eras_consistent.
      rewrite Hperm in Hb. rewrite Forall_forall in Hvalid.
      destruct (compare_eras_valid a b (Hvalid a Ha) (Hvalid b Hb))
        as (x & y & Hx & Hy & Hcmp).
      apply era_number_inj; [by apply Hvalid..|].
      unfold compare_eras in Hab, Hba. rewrite Hx, Hy in Hab, Hba.
      rewrite Hx, Hy. f_equal. lia.
    + by apply sort_sorted, compare_eras_consistent.
    + done.
    + rewrite Hperm, sort_perm by by apply compare_eras_consistent. done.
Qed.

Lemma parseEra_strictly_increasing_witness :
  valid_eras (raw_eras Sample.db) ∧
  StronglySorted era_before (parseEra Sample.db) ∧
  parseEra Sample.db = ["e-1"; "e0"; "e1"].
Proof.
  assert (valid_eras (raw_eras Sample.db)) as Hvalid.
  { split.
    - refine (bool_decide_unpack _ _). vm_compute. exact I.
    - repeat constructor. }
  split_and!; [exact Hvalid| |reflexivity].
  exact (proj1 (parseEra_strictly_increasing Sample.db Hvalid)).
Defined.

(** ** C8: what [load] does to the three tables *)


(** The state a successful [load] leaves. *)
Lemma successful_load_state `{Engine} data st st' :
  load data st = (Ok (), st') →
  ∃ d css, decode data = Ok d ∧ parseCSS d = Ok css ∧
    st' = {| cssDB := Some css;
             vendorsDB := Some (parseVendors d);
             erasDB := Some (parseEra d) |}.
Proof.
  unfold load, parseDB. destruct (decode data) as [d|e]; [|done].
  destruct (parseCSS d) as [css|e] eqn:Hcss; [|done].
  intros [= <-]. by exists d, css.
Qed.

Example undecodable_text_changes_nothing :
  load (Text "agents: none") Sample.st = (Throw SyntaxError, Sample.st).
Proof. reflexivity. Qed.



(** ** C10: the identifiers of one section *)

Lemma sections_are_disjoint : sections_disjoint.
Proof. refine (bool_decide_unpack _ _). vm_compute. exact I. Qed.

Lemma section_names_distinct : wf_object cssSections.
Proof. refine (bool_decide_unpack _ _). vm_compute. exact I. Qed.

Lemma obj_get_elem_of {V} (o : list (string * V)) k v :
  obj_get o k = Some v → (k, v) ∈ o.
Proof.
  induction o as [|[k' v'] o IH]; simpl; [done|].
  destruct (String.eqb_spec k' k) as [->|_].
  - intros [= ->]. by left.
  - intros Hg. right. by apply IH.
Qed.

Lemma wf_object_functional {V} (o : list (string * V)) k v v' :
  wf_object o → (k, v) ∈ o → (k, v') ∈ o → v = v'.
Proof.
  unfold wf_object, Lodash.keys. induction o as [|[k0 v0] o IH]; csimpl.
  { by intros _ ?%elem_of_nil. }
  intros [Hk Ho]%NoDup_cons [H1|H1]%elem_of_cons [H2|H2]%elem_of_cons.
  - congruence.
  - injection H1 as -> ->. destruct Hk.
    apply list_elem_of_fmap. by exists (k0, v').
  - injection H2 as -> ->. destruct Hk.
    apply list_elem_of_fmap. by exists (k0, v).
  - by apply IH.
Qed.

(** Two identifiers of one section are listed together wherever one of
    them is listed. *)
Lemma listed_together name kws kw1 kw2 name' kws' :
  (name, kws) ∈ cssSections → kw1 ∈ kws → kw2 ∈ kws →
  obj_get cssSections name' = Some kws' →
  kw1 ∈ kws' ↔ kw2 ∈ kws'.
Proof.
  intros Hsec H1 H2 Hsec'%obj_get_elem_of.
  destruct (decide (name = name')) as [<-|Hne].
  { by rewrite <-(wf_object_functional _ _ _ _ section_names_distinct
                    Hsec Hsec'). }
  pose proof sections_are_disjoint as Hd. unfold sections_disjoint in Hd.
  rewrite Forall_forall in Hd. specialize (Hd _ Hsec).
  rewrite Forall_forall in Hd. destruct (Hd _ Hsec') as [?|Hd']; [done|].
  rewrite Forall_forall in Hd'. simpl in Hd'.
  split; intros Hin; exfalso; [by apply (Hd' kw1)|by apply (Hd' kw2)].
Qed.

Lemma lookup_assign_all {V} (out : gmap string V) (kws : list string) v k :
  foldl (λ out kw, <[kw := v]> out) out kws !! k
    = if decide (k ∈ kws) then Some v else out !! k.
Proof.
  revert out. induction kws as [|kw kws IH]; intros out; cbn [foldl].
  { destruct (decide (k ∈ [])) as [Hin|_]; [|done]. by apply elem_of_nil in Hin. }
  rewrite IH.
  destruct (decide (k ∈ kws)) as [Hin|Hout],
           (decide (k ∈ kw :: kws)) as [Hin'|Hout']; try done.
  - destruct Hout'. by right.
  - apply elem_of_cons in Hin' as [->|?]; [|done]. apply lookup_insert_eq.
  - apply lookup_insert_ne. intros ->. apply Hout'. by left.
Qed.

(** The support tables of two identifiers of one section are the same. *)
Lemma parseCSS_same_section data css name kws kw1 kw2 :
  parseCSS data = Ok css →
  (name, kws) ∈ cssSections → kw1 ∈ kws → kw2 ∈ kws →
  css !! kw1 = css !! kw2.
Proof.
  intros Hcss Hsec H1 H2. unfold parseCSS in Hcss.
  destruct (raw_cats data); [|done].
  cbv [mbind outcome_bind] in Hcss. injection Hcss as <-.
  assert ((∅ : gmap string (gmap string (gmap string string))) !! kw1
          = (∅ : gmap string (gmap string (gmap string string))) !! kw2)
    as Hinit by by rewrite !lookup_empty.
  revert Hinit.
  generalize (∅ : gmap string (gmap string (gmap string string))).
  induction (raw_data data) as [|[name' section'] rest IH]; intros out Hout.
  { done. }
  cbn [foldl]. apply IH. unfold assignSection.
  destruct (obj_get cssSections name') as [kws'|] eqn:Hsec'; [|done].
  rewrite !lookup_assign_all.
  pose proof (listed_together _ _ _ _ _ _ Hsec H1 H2 Hsec') as Hiff.
  destruct (decide (kw1 ∈ kws')), (decide (kw2 ∈ kws')); tauto.
Qed.

Lemma resolvePrefixes_same_entry `{Engine} prefs st css kw1 kw2 :
  cssDB st = Some css → css !! kw1 = css !! kw2 →
  resolvePrefixes prefs st kw1 = resolvePrefixes prefs st kw2.
Proof. intros Hcss Heq. unfold resolvePrefixes. by rewrite Hcss, Heq. Qed.

(** C10: after a successful [load], two identifiers that [cssSections]
    lists under one section name have the same support table, and
    [resolvePrefixes] gives the same result for both under the same
    preferences. *)
Theorem same_section_same_result `{Engine} data st0 st name kws kw1 kw2 :
  load data st0 = (Ok (), st) →
  (name, kws) ∈ cssSections → kw1 ∈ kws → kw2 ∈ kws →
  (∃ css, cssDB st = Some css ∧ css !! kw1 = css !! kw2) ∧
  ∀ prefs, resolvePrefixes prefs st kw1 = resolvePrefixes prefs st kw2.
Proof.
  intros Hload Hsec H1 H2.
  destruct (successful_load_state data st0 st Hload)
    as (d & css & _ & Hcss & ->).
  pose proof (parseCSS_same_section d css name kws kw1 kw2 Hcss Hsec H1 H2).
  split; [by exists css|].
  intros prefs. by apply (resolvePrefixes_same_entry prefs _ css).
Qed.

Lemma same_section_same_result_witness :
  load (Doc Sample.browsers) initial = (Ok (), Sample.loaded Sample.browsers) ∧
  ("css-transitions",
   ["transition"; "transition-property"; "transition-duration";
    "transition-timing-function"; "transition-delay"]) ∈ cssSections ∧
  (∃ css, cssDB (Sample.loaded Sample.browsers) = Some css ∧
     css !! "transition" = css !! "transition-delay") ∧
  ∀ prefs,
    resolvePrefixes prefs (Sample.loaded Sample.browsers) "transition"
    = resolvePrefixes prefs (Sample.loaded Sample.browsers) "transition-delay".
Proof.
  assert (load (Doc Sample.browsers) initial
          = (Ok (), Sample.loaded Sample.browsers)) as Hload
    by (vm_compute; reflexivity).
  assert (("css-transitions",
           ["transition"; "transition-property"; "transition-duration";
            "transition-timing-function"; "transition-delay"]) ∈ cssSections)
    as Hsec.
  { refine (bool_decide_unpack _ _). vm_compute. exact I. }
  assert ("transition" ∈
            ["transition"; "transition-property"; "transition-duration";
             "transition-timing-function"; "transition-delay"]) as H1.
  { refine (bool_decide_unpack _ _). vm_compute. exact I. }
  assert ("transition-delay" ∈
            ["transition"; "transition-property"; "transition-duration";
             "transition-timing-function"; "transition-delay"]) as H2.
  { refine (bool_decide_unpack _ _). vm_compute. exact I. }
  split_and!; [exact Hload|exact Hsec|..].
  - exact (proj1 (same_section_same_result _ _ _ _ _ _ _ Hload Hsec H1 H2)).
  - exact (proj2 (same_section_same_result _ _ _ _ _ _ _ Hload Hsec H1 H2)).
Defined.

(** * Further properties of the parser and the resolver *)

(** ** Definitions *)



(** The support table has a code for every version label of every vendor. *)
Definition complete_table (vdb : list (string * VendorInfo))
    (propStats : gmap string (gmap string string)) : Prop :=
  ∀ vendor info s,
    obj_get vdb vendor = Some info →
    Some s ∈ vi_versions info → s ≠ "" →
    ∃ row code, propStats !! vendor = Some row ∧ row !! s = Some code.

(** Truth value of a string: every string but the empty one. *)
Definition truthy_text (s : string) : bool := negb (String.eqb s "").

(** The body of the module after its definitions: the bundled database is
    read, a failure to read it is ignored ([file] is [None] then), and what
    was read is parsed, outside the [try]. *)
Definition startup `{Engine} (file : option string) : outcome unit * state :=
  match file with
  | Some db =>
      if truthy_text db then parseDB (Text db) initial else (Ok (), initial)
  | None => (Ok (), initial)
  end.

(** ** [parseVendors] copies the agents *)





(** ** The entries of [cssDB] *)

Lemma obj_get_of_elem {V} (o : list (string * V)) k v :
  wf_object o → (k, v) ∈ o → obj_get o k = Some v.
Proof.
  intros Hwf Hin.
  destruct (obj_get o k) as [v'|] eqn:Hget.
  - f_equal. apply obj_get_elem_of in Hget.
    by apply (wf_object_functional o k).
  - assert (is_Some (obj_get o k)) as [? ?]; [|congruence].
    apply obj_get_is_Some. unfold Lodash.keys.
    apply list_elem_of_fmap. by exists (k, v).
Qed.

Lemma obj_get_None {V} (o : list (string * V)) k :
  obj_get o k = None ↔ k ∉ Lodash.keys o.
Proof. rewrite <-obj_get_is_Some, eq_None_not_Some. done. Qed.

Lemma assignSection_lookup out name section kw :
  assignSection out name section !! kw =
    match obj_get cssSections name with
    | Some kws =>
        if decide (kw ∈ kws) then Some (section_stats section) else out !! kw
    | None => out !! kw
    end.
Proof.
  unfold assignSection. destruct (obj_get cssSections name); [|done].
  apply lookup_assign_all.
Qed.


(** An identifier of section [name] is touched by that section only. *)
Lemma assignSection_other out name kws kw name' section :
  (name, kws) ∈ cssSections → kw ∈ kws → name' ≠ name →
  assignSection out name' section !! kw = out !! kw.
Proof.
  intros Hsec Hkw Hne. rewrite assignSection_lookup.
  destruct (obj_get cssSections name') as [kws'|] eqn:Hsec'; [|done].
  apply obj_get_elem_of in Hsec'.
  pose proof sections_are_disjoint as Hd. unfold sections_disjoint in Hd.
  rewrite Forall_forall in Hd. specialize (Hd _ Hsec).
  rewrite Forall_forall in Hd. destruct (Hd _ Hsec') as [?|Hd']; [done|].
  rewrite Forall_forall in Hd'. simpl in Hd'.
  rewrite decide_False; [done|]. by apply Hd'.
Qed.

Lemma assignSection_own out name kws kw section :
  (name, kws) ∈ cssSections → kw ∈ kws →
  assignSection out name section !! kw = Some (section_stats section).
Proof.
  intros Hsec Hkw. rewrite assignSection_lookup.
  rewrite (obj_get_of_elem _ _ _ section_names_distinct Hsec).
  by rewrite decide_True.
Qed.

Lemma assign_sections_listed sections out name kws kw :
  (name, kws) ∈ cssSections → kw ∈ kws → wf_object sections →
  foldl (λ out '(name, section), assignSection out name section) out sections
    !! kw
  = match obj_get sections name with
    | Some section => Some (section_stats section)
    | None => out !! kw
    end.
Proof.
  intros Hsec Hkw. revert out.
  induction sections as [|[n s] sections IH]; intros out Hwf; [done|].
  unfold wf_object, Lodash.keys in Hwf. csimpl in Hwf.
  apply NoDup_cons in Hwf as [Hn Hwf].
  cbn [foldl obj_get]. rewrite IH by done.
  destruct (String.eqb_spec n name) as [->|Hne].
  - assert (obj_get sections name = None) as -> by by apply obj_get_None.
    by apply (assignSection_own _ _ kws).
  - destruct (obj_get sections name); [done|].
    by apply (assignSection_other _ name kws).
Qed.


Lemma parseCSS_inv data css :
  parseCSS data = Ok css →
  css = foldl (λ out '(name, section), assignSection out name section)
          ∅ (raw_data data).
Proof.
  unfold parseCSS. destruct (raw_cats data); [|done].
  cbv [mbind outcome_bind]. by intros [= <-].
Qed.

(** X2: after a parse of a document whose [data] is an object, the entry
    of an identifier that [cssSections] lists under a section name is the
    [stats] of the section of that name, when the document has one, and the
    identifier has no entry when the document has none; sections that
    [cssSections] does not know add nothing. *)
Theorem parseCSS_entries data css name kws kw :
  parseCSS data = Ok css →
  wf_object (raw_data data) →
  (name, kws) ∈ cssSections → kw ∈ kws →
  css !! kw = section_stats <$> obj_get (raw_data data) name.
Proof.
  intros ->%parseCSS_inv Hwf Hsec Hkw.
  rewrite (assign_sections_listed _ _ name kws) by done.
  by destruct (obj_get (raw_data data) name).
Qed.

Lemma parseCSS_entries_witness :
  ∃ css,
    parseCSS Sample.browsers = Ok css ∧
    wf_object (raw_data Sample.browsers) ∧
    css !! "transition-delay"
    = section_stats <$> obj_get (raw_data Sample.browsers) "css-transitions".
Proof.
  exists (foldl (λ out '(name, section), assignSection out name section)
            ∅ (raw_data Sample.browsers)).
  assert (parseCSS Sample.browsers
          = Ok (foldl (λ out '(name, section), assignSection out name section)
                  ∅ (raw_data Sample.browsers))) as Hcss by reflexivity.
  assert (wf_object (raw_data Sample.browsers)) as Hwf.
  { refine (bool_decide_unpack _ _). vm_compute. exact I. }
  assert (("css-transitions",
           ["transition"; "transition-property"; "transition-duration";
            "transition-timing-function"; "transition-delay"]) ∈ cssSections)
    as Hsec.
  { refine (bool_decide_unpack _ _). vm_compute. exact I. }
  assert ("transition-delay" ∈
            ["transition"; "transition-property"; "transition-duration";
             "transition-timing-function"; "transition-delay"]) as Hkw.
  { refine (bool_decide_unpack _ _). vm_compute. exact I. }
  split_and!; [exact Hcss|exact Hwf|].
  exact (parseCSS_entries _ _ _ _ _ Hcss Hwf Hsec Hkw).
Defined.




(** ** How [load] fails, and how calls of [load] compose *)



(** X5: [load] is idempotent: a second call with the same argument returns
    the same result and leaves the same state as the first.  And a call
    that succeeds makes the calls before it irrelevant. *)
Theorem load_idempotent `{Engine} data st :
  load data (load data st).2 = load data st ∧
  ∀ data', (load data st).1 = Ok () →
    load data (load data' st).2 = load data st.
Proof.
  unfold load, parseDB. split.
  - destruct (decode data) as [d|e]; [|done]. by destruct (parseCSS d).
  - intros data'. destruct (decode data) as [d|e]; [|done].
    by destruct (parseCSS d).
Qed.

(** ** The start of the module *)

(** X6: when the bundled database cannot be read, or is an empty text, the
    module starts with no database and [resolvePrefixes] answers [null] to
    every request; when it is read but cannot be decoded, the start of the
    module itself raises, for the [try] covers the reading only. *)
Theorem startup_without_database `{Engine} file :
  (file = None ∨ file = Some "" →
     startup file = (Ok (), initial) ∧
     ∀ prefs property,
       resolvePrefixes prefs (startup file).2 property = Ok None) ∧
  (∀ db, file = Some db → db ≠ "" → JSON_parse db = None →
     startup file = (Throw SyntaxError, initial)).
Proof.
  split.
  - intros [->| ->]; (split; [done|]); intros prefs property;
      unfold resolvePrefixes; simpl; by destruct (negb _).
  - intros db -> Hne Hdb. unfold startup, truthy_text.
    destruct (String.eqb_spec db "") as [?|_]; [done|].
    unfold parseDB. simpl. by rewrite Hdb.
Qed.

Lemma startup_without_database_witness :
  JSON_parse "<html>" = None ∧
  startup (Some "<html>") = (Throw SyntaxError, initial) ∧
  ∀ prefs property,
    resolvePrefixes prefs (startup None).2 property = Ok None.
Proof.
  assert (JSON_parse "<html>" = None) as Hdb by reflexivity.
  split_and!; [exact Hdb| |].
  - refine (proj2 (startup_without_database (Some "<html>")) "<html>"
              eq_refl _ Hdb).
    discriminate.
  - exact (proj2 (proj1 (startup_without_database None) (or_introl eq_refl))).
Defined.

(** ** What a returned list holds *)

Lemma reaches_flag_scan vdb propStats versions vendor info :
  obj_get vdb vendor = Some info →
  reaches_flag vdb propStats versions vendor ↔
  scanVersions propStats vendor (Js.slice versions (vi_versions info))
    = Ok true.
Proof.
  intros Hinfo. split.
  - intros (info' & pre & v & post & Hinfo' & Hsl & Hpre & Hv).
    assert (info' = info) as -> by congruence.
    by rewrite Hsl, scan_app_passes, scan_cons_flagged.
  - intros (pre & v & post & ? & ? & ?)%scan_hit_inv.
    by exists info, pre, v, post.
Qed.

Lemma reaches_missing_cell_scan vdb propStats versions vendor info :
  obj_get vdb vendor = Some info →
  reaches_missing_cell vdb propStats versions vendor ↔
  scanVersions propStats vendor (Js.slice versions (vi_versions info))
    = Throw TypeError.
Proof.
  intros Hinfo. split.
  - intros (info' & pre & v & post & Hinfo' & Hsl & Hpre & Hv).
    assert (info' = info) as -> by congruence.
    by rewrite Hsl, scan_app_passes, scan_cons_missing.
  - intros (_ & pre & v & post & ? & ? & ?)%scan_throw_inv.
    by exists info, pre, v, post.
Qed.

(** The content of a returned list, and what a returned list excludes. *)
Lemma resolved_list `{Engine} prefs st property l :
  resolvePrefixes prefs st property = Ok (Some l) →
  ∃ css propStats,
    cssDB st = Some css ∧ css !! property = Some propStats ∧
    caniuse_enabled prefs = true ∧
    NoDup l ∧
    (∀ vendor, vendor ∈ getVendorsList prefs st →
       ¬ reaches_missing_cell (default [] (vendorsDB st)) propStats
           (getVersionSlice prefs st) vendor) ∧
    ∀ p, p ∈ l ↔
      ∃ vendor info,
        vendor ∈ getVendorsList prefs st ∧
        obj_get (default [] (vendorsDB st)) vendor = Some info ∧
        vi_prefix info = p ∧
        reaches_flag (default [] (vendorsDB st)) propStats
          (getVersionSlice prefs st) vendor.
Proof.
  intros Hl.
  destruct (resolvePrefixes_cases prefs st property)
    as [[_ Hr]|[(Hna & Hraise & css & ps & pfx & Hcss & Hprop & He & Hr)
               |(_ & _ & Hr)]];
    [congruence| |congruence].
  rewrite Hr in Hl. injection Hl as <-.
  exists css, ps. split_and!; [done..| | | |].
  - destruct (caniuse_enabled prefs) eqn:Hen; [done|]. destruct Hna. by left.
  - rewrite sort_perm by apply compare_lengths_consistent. apply NoDup_unique.
  - intros vendor Hv Hm. apply Hraise. by exists css, ps, vendor.
  - intros p. rewrite sort_perm by apply compare_lengths_consistent.
    rewrite elem_of_unique.
    rewrite (eachVendor_result _ _ _ _ _ _ (getVendorsList_known prefs st) He).
    rewrite elem_of_nil. tauto.
Qed.

(** A call that finds an entry and reaches no missing cell returns. *)
Lemma resolves `{Engine} prefs st property css propStats :
  caniuse_enabled prefs = true →
  cssDB st = Some css → css !! property = Some propStats →
  (∀ vendor, vendor ∈ getVendorsList prefs st →
     ¬ reaches_missing_cell (default [] (vendorsDB st)) propStats
         (getVersionSlice prefs st) vendor) →
  ∃ l, resolvePrefixes prefs st property = Ok (Some l).
Proof.
  intros Hen Hcss Hprop Hclean.
  destruct (resolvePrefixes_cases prefs st property)
    as [[Hna _]|[(_ & _ & css' & ps & pfx & _ & _ & _ & Hr)
               |(_ & Hraise & _)]].
  - destruct Hna as [?|[?|(css' & Hcss' & Hprop')]]; congruence.
  - by eexists.
  - destruct Hraise as (css' & ps & vendor & Hcss' & Hprop' & Hv & Hm).
    assert (css' = css) as -> by congruence.
    assert (ps = propStats) as -> by congruence.
    by destruct (Hclean vendor Hv).
Qed.

(** ** A vendor with few versions *)

(** X7: a vendor whose version list is not longer than the starting index
    has nothing to scan: its support codes are not read, it adds no prefix
    and it cannot make the call fail. *)
Theorem short_version_list_is_skipped vdb propStats versions prefixes
    vendor info :
  obj_get vdb vendor = Some info →
  Z.of_nat (length (vi_versions info)) <= versions →
  visitVendor vdb propStats versions prefixes vendor = Ok prefixes.
Proof.
  intros Hinfo Hlen. unfold visitVendor. rewrite Hinfo. simpl.
  rewrite slice_nonneg by lia. rewrite drop_ge by lia. done.
Qed.

Lemma short_version_list_is_skipped_witness :
  obj_get (default [] (vendorsDB (Sample.loaded Sample.browsers))) "ie"
    = Some {| vi_prefix := "-ms-"; vi_versions := [Some "10"] |} ∧
  visitVendor (default [] (vendorsDB (Sample.loaded Sample.browsers)))
    ∅ 1 ["-moz-"] "ie" = Ok ["-moz-"].
Proof.
  assert (obj_get (default [] (vendorsDB (Sample.loaded Sample.browsers))) "ie"
          = Some {| vi_prefix := "-ms-"; vi_versions := [Some "10"] |})
    as Hinfo by reflexivity.
  split; [exact Hinfo|].
  refine (short_version_list_is_skipped _ ∅ 1 ["-moz-"] "ie" _ Hinfo _).
  simpl. lia.
Defined.

(** ** An older cutoff, a shorter vendor list *)

Lemma slice_split {A} (n1 n2 : Z) (l : list A) :
  0 <= n1 <= n2 →
  ∃ extra, Js.slice n1 l = (extra ++ Js.slice n2 l)%list.
Proof.
  intros Hn. rewrite !slice_nonneg by lia.
  exists (take (Z.to_nat n2 - Z.to_nat n1) (drop (Z.to_nat n1) l)).
  rewrite <-(take_drop (Z.to_nat n2 - Z.to_nat n1) (drop (Z.to_nat n1) l))
    at 1.
  f_equal. rewrite drop_drop. f_equal. lia.
Qed.

(** A flag that a scan reaches is reached by a scan that starts earlier,
    unless that scan raises first. *)
Lemma scan_earlier_start propStats vendor extra vs :
  scanVersions propStats vendor vs = Ok true →
  scanVersions propStats vendor (extra ++ vs)%list = Ok true ∨
  scanVersions propStats vendor (extra ++ vs)%list = Throw TypeError.
Proof.
  intros Hvs. induction extra as [|v extra IH]; [by left|].
  rewrite <-app_comm_cons.
  destruct (entry_cases propStats vendor v) as [Hv|[Hv|Hv]].
  - by rewrite scan_cons_passes.
  - left. by apply scan_cons_flagged.
  - right. by apply scan_cons_missing.
Qed.

Lemma getVendorsList_vendors prefs prefs' st :
  caniuse_vendors prefs' = caniuse_vendors prefs →
  getVendorsList prefs' st = getVendorsList prefs st.
Proof. intros Hv. unfold getVendorsList. by rewrite Hv. Qed.

Lemma getVersionSlice_era prefs prefs' st :
  caniuse_era prefs' = caniuse_era prefs →
  getVersionSlice prefs' st = getVersionSlice prefs st.
Proof. intros He. unfold getVersionSlice. by rewrite He. Qed.

(** X8: with the same vendors, moving the cutoff to an older era that the
    database knows never loses a prefix: when both calls return, every
    prefix required from the later era on is required from the older era
    on as well. *)
Theorem older_cutoff_keeps_prefixes `{Engine} older later st property l l' :
  caniuse_vendors later = caniuse_vendors older →
  0 <= getVersionSlice older st <= getVersionSlice later st →
  resolvePrefixes older st property = Ok (Some l) →
  resolvePrefixes later st property = Ok (Some l') →
  l' ⊆ l.
Proof.
  intros Hvendors Hstart
    (css & ps & Hcss & Hprop & _ & _ & Hclean & Hmem)%resolved_list
    (css' & ps' & Hcss' & Hprop' & _ & _ & _ & Hmem')%resolved_list.
  assert (css' = css) as -> by congruence.
  assert (ps' = ps) as -> by congruence.
  rewrite (getVendorsList_vendors older later) in Hmem' by done.
  intros p. rewrite Hmem, Hmem'.
  intros (vendor & info & Hv & Hinfo & Hp & Hflag).
  exists vendor, info. split_and!; [done..|].
  apply (reaches_flag_scan _ _ _ _ info Hinfo) in Hflag.
  destruct (slice_split _ _ (vi_versions info) Hstart) as [extra Hsl].
  apply (reaches_flag_scan _ _ _ _ info Hinfo). rewrite Hsl.
  destruct (scan_earlier_start ps vendor extra _ Hflag) as [?|Hthrow]; [done|].
  destruct (Hclean vendor Hv).
  apply (reaches_missing_cell_scan _ _ _ _ info Hinfo). by rewrite Hsl.
Qed.

Lemma older_cutoff_keeps_prefixes_witness :
  caniuse_vendors (Sample.prefs_era "e0")
    = caniuse_vendors (Sample.prefs_era "e-1") ∧
  0 <= getVersionSlice (Sample.prefs_era "e-1") Sample.st
    <= getVersionSlice (Sample.prefs_era "e0") Sample.st ∧
  resolvePrefixes (Sample.prefs_era "e-1") Sample.st "transform"
    = Ok (Some ["-a-"]) ∧
  resolvePrefixes (Sample.prefs_era "e0") Sample.st "transform"
    = Ok (Some ["-a-"]) ∧
  ["-a-"] ⊆ ["-a-"].
Proof.
  assert (0 <= getVersionSlice (Sample.prefs_era "e-1") Sample.st
            <= getVersionSlice (Sample.prefs_era "e0") Sample.st) as Hstart.
  { vm_compute. split; discriminate. }
  assert (resolvePrefixes (Sample.prefs_era "e-1") Sample.st "transform"
          = Ok (Some ["-a-"])) as Hl by (vm_compute; reflexivity).
  assert (resolvePrefixes (Sample.prefs_era "e0") Sample.st "transform"
          = Ok (Some ["-a-"])) as Hl' by (vm_compute; reflexivity).
  split; [reflexivity|]. split; [exact Hstart|].
  split; [exact Hl|]. split; [exact Hl'|].
  exact (older_cutoff_keeps_prefixes (Sample.prefs_era "e-1")
           (Sample.prefs_era "e0") Sample.st "transform" _ _
           eq_refl Hstart Hl Hl').
Defined.

(** X9: restricting the vendors never adds a prefix nor a failure: when
    the call for all vendors returns a list, the call for any configured
    vendor list, with the same era, returns a list too, and every prefix
    of it is in the list for all vendors. *)
Theorem allow_list_only_removes_prefixes `{Engine} all some st property l :
  getVendorsList all st = Lodash.keys (default [] (vendorsDB st)) →
  caniuse_enabled some = caniuse_enabled all →
  caniuse_era some = caniuse_era all →
  resolvePrefixes all st property = Ok (Some l) →
  ∃ l', resolvePrefixes some st property = Ok (Some l') ∧ l' ⊆ l.
Proof.
  intros Hall Hen Hera
    (css & ps & Hcss & Hprop & Hon & _ & Hclean & Hmem)%resolved_list.
  assert (∀ vendor, vendor ∈ getVendorsList some st →
                    vendor ∈ getVendorsList all st) as Hsub.
  { intros vendor Hv. rewrite Hall.
    by apply (proj1 (Forall_forall _ _) (getVendorsList_known some st)). }
  destruct (resolves some st property css ps) as [l' Hl']; [congruence|done..| |].
  { intros vendor Hv. rewrite (getVersionSlice_era all some) by done. auto. }
  exists l'. split; [done|].
  apply resolved_list in Hl'
    as (css' & ps' & Hcss' & Hprop' & _ & _ & _ & Hmem').
  assert (css' = css) as -> by congruence.
  assert (ps' = ps) as -> by congruence.
  intros p. rewrite Hmem, Hmem'.
  intros (vendor & info & Hv & Hinfo & Hp & Hflag).
  exists vendor, info. split_and!; [auto|done..|].
  by rewrite <-(getVersionSlice_era all some).
Qed.

Lemma allow_list_only_removes_prefixes_witness :
  getVendorsList Sample.prefs (Sample.loaded Sample.browsers)
    = Lodash.keys (default [] (vendorsDB (Sample.loaded Sample.browsers))) ∧
  resolvePrefixes Sample.prefs (Sample.loaded Sample.browsers) "transition"
    = Ok (Some ["-webkit-"; "-moz-"; "-ms-"]) ∧
  ∃ l', resolvePrefixes (Sample.prefs_only ["safari"; "ie"; "lynx"])
          (Sample.loaded Sample.browsers) "transition" = Ok (Some l') ∧
        l' ⊆ ["-webkit-"; "-moz-"; "-ms-"].
Proof.
  assert (resolvePrefixes Sample.prefs (Sample.loaded Sample.browsers)
            "transition" = Ok (Some ["-webkit-"; "-moz-"; "-ms-"])) as Hl
    by (vm_compute; reflexivity).
  split_and!; [reflexivity|exact Hl|].
  exact (allow_list_only_removes_prefixes Sample.prefs
           (Sample.prefs_only ["safari"; "ie"; "lynx"]) _ _ _
           eq_refl eq_refl eq_refl Hl).
Defined.

(** ** The order of the vendors *)

Lemma wf_object_perm {V} (o o' : list (string * V)) :
  o' ≡ₚ o → wf_object o → wf_object o'.
Proof. unfold wf_object, Lodash.keys. by intros ->. Qed.

Lemma obj_get_perm {V} (o o' : list (string * V)) k :
  o' ≡ₚ o → wf_object o → obj_get o' k = obj_get o k.
Proof.
  intros Hp Hwf. pose proof (wf_object_perm o o' Hp Hwf) as Hwf'.
  destruct (obj_get o k) as [v|] eqn:Hget.
  - apply obj_get_of_elem; [done|]. rewrite Hp. by apply obj_get_elem_of.
  - apply obj_get_None. apply obj_get_None in Hget.
    unfold Lodash.keys in *. by rewrite Hp.
Qed.

Lemma getVendorsList_perm prefs st st' vendor :
  default [] (vendorsDB st') ≡ₚ default [] (vendorsDB st) →
  vendor ∈ getVendorsList prefs st' ↔ vendor ∈ getVendorsList prefs st.
Proof.
  intros Hp. unfold getVendorsList.
  assert (Lodash.keys (default [] (vendorsDB st'))
          ≡ₚ Lodash.keys (default [] (vendorsDB st))) as Hk.
  { unfold Lodash.keys. by rewrite Hp. }
  destruct (caniuse_vendors prefs) as [vendors|]; [|by rewrite Hk].
  case_bool_decide; [by rewrite Hk|].
  rewrite !elem_of_intersection. by rewrite Hk.
Qed.

Section VendorOrder.
Variables (vdb vdb' : list (string * VendorInfo)).
Hypothesis Hperm : vdb' ≡ₚ vdb.
Hypothesis Hwf : wf_object vdb.

Lemma reaches_flag_perm propStats versions vendor :
  reaches_flag vdb' propStats versions vendor ↔
  reaches_flag vdb propStats versions vendor.
Proof.
  unfold reaches_flag. by setoid_rewrite (obj_get_perm vdb vdb' vendor Hperm Hwf).
Qed.

Lemma reaches_missing_cell_perm propStats versions vendor :
  reaches_missing_cell vdb' propStats versions vendor ↔
  reaches_missing_cell vdb propStats versions vendor.
Proof.
  unfold reaches_missing_cell.
  by setoid_rewrite (obj_get_perm vdb vdb' vendor Hperm Hwf).
Qed.
End VendorOrder.

Lemma resolvePrefixes_trichotomy `{Engine} prefs st property :
  resolvePrefixes prefs st property = Ok None ∨
  (∃ l, resolvePrefixes prefs st property = Ok (Some l)) ∨
  resolvePrefixes prefs st property = Throw TypeError.
Proof.
  destruct (resolvePrefixes_cases prefs st property)
    as [[_ ->]|[(_ & _ & css & ps & pfx & _ & _ & _ & ->)|(_ & _ & ->)]];
    [by left|right; left; by eexists|by right; right].
Qed.

Lemma vendor_order_null `{Engine} prefs st st' property :
  cssDB st' = cssDB st →
  resolvePrefixes prefs st' property = Ok None ↔
  resolvePrefixes prefs st property = Ok None.
Proof.
  intros Hcss. unfold resolvePrefixes. rewrite Hcss.
  destruct (negb (caniuse_enabled prefs)); [done|].
  destruct (cssDB st) as [css|]; [|done].
  destruct (css !! property); [|done].
  split; intros Hnone.
  - by destruct (eachVendor _ _ _ _ (getVendorsList prefs st')).
  - by destruct (eachVendor _ _ _ _ (getVendorsList prefs st)).
Qed.

Lemma vendor_order_list `{Engine} prefs st st' property l :
  wf_state st →
  default [] (vendorsDB st') ≡ₚ default [] (vendorsDB st) →
  cssDB st' = cssDB st →
  erasDB st' = erasDB st →
  resolvePrefixes prefs st property = Ok (Some l) →
  ∃ l', resolvePrefixes prefs st' property = Ok (Some l') ∧ l' ≡ₚ l.
Proof.
  intros Hwf Hperm Hcss Heras.
  assert (getVersionSlice prefs st' = getVersionSlice prefs st) as Hstart.
  { unfold getVersionSlice. by rewrite Heras. }
  intros (css & ps & Hcss' & Hprop & Hon & Hnd & Hclean & Hmem)%resolved_list.
  destruct (resolves prefs st' property css ps) as [l' Hl'];
    [done|congruence|done| |].
  { intros vendor Hv. rewrite Hstart.
    rewrite (reaches_missing_cell_perm _ _ Hperm Hwf).
    apply Hclean. by apply (getVendorsList_perm prefs st st'). }
  exists l'. split; [done|].
  apply resolved_list in Hl'
    as (css' & ps' & Hcss'' & Hprop' & _ & Hnd' & _ & Hmem').
  assert (css' = css) as -> by congruence.
  assert (ps' = ps) as -> by congruence.
  apply NoDup_Permutation; [done..|].
  intros p. rewrite Hmem, Hmem', Hstart.
  split; intros (vendor & info & Hv & Hinfo & Hp & Hflag);
    exists vendor, info.
  - rewrite (obj_get_perm _ _ vendor Hperm Hwf) in Hinfo.
    split_and!; [by apply (getVendorsList_perm prefs st st')|done..|].
    by apply (reaches_flag_perm _ _ Hperm Hwf).
  - rewrite (obj_get_perm _ _ vendor Hperm Hwf).
    split_and!; [by apply (getVendorsList_perm prefs st st')|done..|].
    by apply (reaches_flag_perm _ _ Hperm Hwf).
Qed.

(** X10: the order in which the database lists its agents does not matter:
    two states that differ only in the order of the vendor table give the
    same kind of result ([null], a list, or a type error), and when one
    call returns a list the other returns a list of the same prefixes. *)
Theorem vendor_order_is_irrelevant `{Engine} prefs st st' property :
  wf_state st →
  default [] (vendorsDB st') ≡ₚ default [] (vendorsDB st) →
  cssDB st' = cssDB st →
  erasDB st' = erasDB st →
  (resolvePrefixes prefs st' property = Ok None ↔
     resolvePrefixes prefs st property = Ok None) ∧
  (resolvePrefixes prefs st' property = Throw TypeError ↔
     resolvePrefixes prefs st property = Throw TypeError) ∧
  ∀ l, resolvePrefixes prefs st property = Ok (Some l) →
    ∃ l', resolvePrefixes prefs st' property = Ok (Some l') ∧ l' ≡ₚ l.
Proof.
  intros Hwf Hperm Hcss Heras.
  assert (wf_state st') as Hwf' by by apply (wf_object_perm _ _ Hperm).
  pose proof (vendor_order_null prefs st st' property Hcss) as Hnull.
  split_and!; [done| |intros l; by apply vendor_order_list].
  split; intros Hthrow.
  - destruct (resolvePrefixes_trichotomy prefs st property)
      as [Hn|[[l Hl]|?]]; [| |done].
    + apply Hnull in Hn. congruence.
    + destruct (vendor_order_list prefs st st' property l)
        as (l' & Hl' & _); [done..|congruence].
  - destruct (resolvePrefixes_trichotomy prefs st' property)
      as [Hn|[[l Hl]|?]]; [| |done].
    + apply Hnull in Hn. congruence.
    + destruct (vendor_order_list prefs st' st property l)
        as (l' & Hl' & _); [done|by symmetry|by symmetry|by symmetry|done|].
      congruence.
Qed.

Lemma vendor_order_is_irrelevant_witness :
  wf_state (Sample.loaded Sample.browsers) ∧
  ∃ l',
    resolvePrefixes Sample.prefs
      {| cssDB := cssDB (Sample.loaded Sample.browsers);
         vendorsDB :=
           Some (reverse (default []
                            (vendorsDB (Sample.loaded Sample.browsers))));
         erasDB := erasDB (Sample.loaded Sample.browsers) |}
      "transition" = Ok (Some l') ∧
    l' ≡ₚ ["-webkit-"; "-moz-"; "-ms-"].
Proof.
  assert (wf_state (Sample.loaded Sample.browsers)) as Hwf.
  { apply (wf_state_parseDB (Doc Sample.browsers) initial), wf_state_initial. }
  assert (resolvePrefixes Sample.prefs (Sample.loaded Sample.browsers)
            "transition" = Ok (Some ["-webkit-"; "-moz-"; "-ms-"])) as Hl
    by (vm_compute; reflexivity).
  split; [exact Hwf|].
  refine (proj2 (proj2 (vendor_order_is_irrelevant Sample.prefs
                          (Sample.loaded Sample.browsers)
                          {| cssDB := cssDB (Sample.loaded Sample.browsers);
                             vendorsDB :=
                               Some (reverse
                                       (default []
                                          (vendorsDB
                                             (Sample.loaded Sample.browsers))));
                             erasDB := erasDB (Sample.loaded Sample.browsers) |}
                          "transition" Hwf _ eq_refl eq_refl)) _ Hl).
  apply reverse_Permutation.
Defined.

(** ** A complete support table *)

Lemma slice_subseteq {A} (start : Z) (l : list A) : Js.slice start l ⊆ l.
Proof. unfold Js.slice. apply subseteq_drop. Qed.

Lemma complete_table_no_missing_cell vdb propStats versions vendor :
  complete_table vdb propStats →
  ¬ reaches_missing_cell vdb propStats versions vendor.
Proof.
  intros Hc (info & pre & v & post & Hinfo & Hsl & _ & s & -> & Ht & Hcell).
  destruct (Hc vendor info s Hinfo) as (row & code & Hrow & Hcode).
  - apply (slice_subseteq versions). rewrite Hsl.
    apply elem_of_app. right. by left.
  - intros ->. done.
  - rewrite Hrow in Hcell. simpl in Hcell. congruence.
Qed.

(** X11: when the support table of an identifier has a code for every
    version label of every vendor, [resolvePrefixes] never raises for that
    identifier: it returns a list under every enabled preference, whatever
    the vendor list and the era, and [null] when the feature is disabled. *)
Theorem complete_table_never_raises `{Engine} st property css propStats :
  cssDB st = Some css →
  css !! property = Some propStats →
  complete_table (default [] (vendorsDB st)) propStats →
  ∀ prefs,
    if caniuse_enabled prefs
    then ∃ l, resolvePrefixes prefs st property = Ok (Some l)
    else resolvePrefixes prefs st property = Ok None.
Proof.
  intros Hcss Hprop Hcomplete prefs.
  destruct (caniuse_enabled prefs) eqn:Hen.
  - apply (resolves prefs st property css propStats); [done..|].
    intros vendor _. by apply complete_table_no_missing_cell.
  - unfold resolvePrefixes. by rewrite Hen.
Qed.

Lemma complete_table_never_raises_witness :
  cssDB Sample.st = Some {[ "transform" := Sample.stats ]} ∧
  complete_table (default [] (vendorsDB Sample.st)) Sample.stats ∧
  ∃ l, resolvePrefixes (Sample.prefs_era "e-9") Sample.st "transform"
       = Ok (Some l).
Proof.
  assert (cssDB Sample.st = Some {[ "transform" := Sample.stats ]})
    as Hcss by (vm_compute; reflexivity).
  assert (({[ "transform" := Sample.stats ]}
             : gmap string (gmap string (gmap string string))) !! "transform"
          = Some Sample.stats)
    as Hprop by (vm_compute; reflexivity).
  assert (complete_table (default [] (vendorsDB Sample.st)) Sample.stats)
    as Hcomplete.
  { intros vendor info s Hinfo Hs _.
    change (default [] (vendorsDB Sample.st))
      with [("A", {| vi_prefix := "-a-";
                     vi_versions := [Some "v1"; Some "v2"; Some "v3"] |});
            ("B", {| vi_prefix := "-b-";
                     vi_versions := [Some "w1"; Some "w2"; Some "w3"] |})]
      in Hinfo.
    cbn [obj_get] in Hinfo.
    destruct (String.eqb "A" vendor) eqn:HA.
    { apply String.eqb_eq in HA as <-. injection Hinfo as <-.
      cbn [vi_versions] in Hs.
      repeat (apply elem_of_cons in Hs as [[= ->]|Hs];
              [eexists _, _; split; vm_compute; reflexivity|]).
      by apply elem_of_nil in Hs. }
    destruct (String.eqb "B" vendor) eqn:HB; [|done].
    apply String.eqb_eq in HB as <-. injection Hinfo as <-.
    cbn [vi_versions] in Hs.
    repeat (apply elem_of_cons in Hs as [[= ->]|Hs];
            [eexists _, _; split; vm_compute; reflexivity|]).
    by apply elem_of_nil in Hs. }
  split_and!; [exact Hcss|exact Hcomplete|].
  exact (complete_table_never_raises Sample.st "transform" _ _
           Hcss Hprop Hcomplete (Sample.prefs_era "e-9")).
Defined.

(** ** The three tables are set together *)

Lemma load_tables_together `{Engine} data st :
  (is_Some (cssDB st) → is_Some (vendorsDB st) ∧ is_Some (erasDB st)) →
  is_Some (cssDB (load data st).2) →
  is_Some (vendorsDB (load data st).2) ∧ is_Some (erasDB (load data st).2).
Proof.
  intros Hst. unfold load, parseDB.
  destruct (decode data) as [d|e]; [|done].
  destruct (parseCSS d) as [css|e]; simpl.
  - intros _. by split; eexists.
  - intros Hcss. split; [by eexists|]. by apply Hst.
Qed.

(** X12: in every state that calls of [load] reach from the start of the
    module, a [cssDB] that is set comes with a [vendorsDB] and an [erasDB]
    that are set: [resolvePrefixes], which tests [cssDB] only, never finds
    one of the other two tables [null] behind it. *)
Theorem tables_are_set_together `{Engine} inputs :
  is_Some (cssDB (loads inputs initial)) →
  is_Some (vendorsDB (loads inputs initial)) ∧
  is_Some (erasDB (loads inputs initial)).
Proof.
  assert (∀ st,
            (is_Some (cssDB st) →
             is_Some (vendorsDB st) ∧ is_Some (erasDB st)) →
            is_Some (cssDB (loads inputs st)) →
            is_Some (vendorsDB (loads inputs st)) ∧
            is_Some (erasDB (loads inputs st))) as Hgen.
  { induction inputs as [|data rest IH]; intros st Hst; [done|].
    cbn [loads]. apply IH. by apply load_tables_together. }
  apply Hgen. by intros [? ?].
Qed.

Lemma tables_are_set_together_witness :
  is_Some (cssDB (loads [Doc Sample.db; Doc Sample.uncategorised] initial)) ∧
  is_Some (vendorsDB (loads [Doc Sample.db; Doc Sample.uncategorised] initial)) ∧
  is_Some (erasDB (loads [Doc Sample.db; Doc Sample.uncategorised] initial)).
Proof.
  assert (is_Some (cssDB (loads [Doc Sample.db; Doc Sample.uncategorised]
                            initial))) as Hcss by by eexists.
  split; [exact Hcss|].
  exact (tables_are_set_together [Doc Sample.db; Doc Sample.uncategorised]
           Hcss).
Defined.

(** ** The eras that a cutoff covers *)

(** [b] is not an earlier era than [a]. *)
Definition era_at_or_after (a b : string) : Prop :=
  ∃ x y, era_number a = Some x ∧ era_number b = Some y ∧ x <= y.

Lemma parseEra_ordered `{Engine} data :
  valid_eras (raw_eras data) →
  StronglySorted era_before (parseEra data) ∧
  ∀ k, k ∈ parseEra data → valid_era k = true.
Proof.
  intros [Hnd Hvalid]. unfold parseEra, wf_object in *.
  set (ks := Lodash.keys (raw_eras data)) in *.
  pose proof (sort_perm compare_eras ks (compare_eras_consistent ks Hvalid))
    as Hperm.
  assert (∀ k, k ∈ sort compare_eras ks → valid_era k = true) as Hvalid'.
  { intros k. rewrite Hperm. apply (proj1 (Forall_forall _ _) Hvalid). }
  split; [|done].
  eapply StronglySorted_weaken;
    [|apply StronglySorted_NoDup_strict;
       [apply sort_sorted, compare_eras_consistent, Hvalid
       |by rewrite Hperm]].
  intros a b Ha Hb [Hle Hne]. simpl in Hle.
  destruct (compare_eras_valid a b (Hvalid' a Ha) (Hvalid' b Hb))
    as (x & y & Hx & Hy & Hcmp).
  exists x, y. split_and!; [done..|].
  assert (x ≠ y); [|lia]. intros ->. apply Hne.
  apply era_number_inj; [by apply Hvalid'..|congruence].
Qed.

(** X13: after a parse of a valid [eras] section, and for a configured era
    that the section has, the eras from the starting index on are exactly
    the eras whose number is at least the number of the configured era:
    the cutoff drops the older eras and nothing else. *)
Theorem cutoff_covers_later_eras `{Engine} data prefs st k :
  valid_eras (raw_eras data) →
  erasDB st = Some (parseEra data) →
  caniuse_era prefs ∈ parseEra data →
  k ∈ parseEra data →
  k ∈ drop (Z.to_nat (getVersionSlice prefs st)) (parseEra data) ↔
  era_at_or_after (caniuse_era prefs) k.
Proof.
  intros Hvalid Heras Hera Hk.
  destruct (parseEra_ordered data Hvalid) as [Hsorted Hv].
  set (l := parseEra data) in *. set (era := caniuse_era prefs) in *.
  assert (getVersionSlice prefs st = Lodash.indexOf l era) as ->.
  { rewrite getVersionSlice_found; rewrite Heras; done. }
  destruct (indexOf_present l era Hera) as [_ Hat].
  set (i := Z.to_nat (Lodash.indexOf l era)) in *.
  pose proof (take_drop_middle l i era Hat) as Hsplit.
  rewrite <-Hsplit in Hsorted.
  apply StronglySorted_app in Hsorted as (Hcross & _ & Hright).
  apply StronglySorted_cons in Hright as [Hafter _].
  rewrite Forall_forall in Hafter.
  destruct (era_number_is_Some era (Hv era Hera)) as [x Hx].
  rewrite (drop_S l era i Hat). split.
  - intros [->|Hin]%elem_of_cons.
    + exists x, x. split_and!; [done..|lia].
    + destruct (Hafter k Hin) as (x' & y & Hx' & Hy & Hlt).
      exists x', y. split_and!; [done..|lia].
  - intros (x' & y & Hx' & Hy & Hle).
    rewrite <-Hsplit in Hk. apply elem_of_app in Hk as [Hin|Hin]; [|done].
    destruct (Hcross k era Hin) as (y' & x'' & Hy' & Hx'' & Hlt);
      [by left|].
    assert (y' = y) by congruence. assert (x'' = x') by congruence. lia.
Qed.

Lemma cutoff_covers_later_eras_witness :
  valid_eras (raw_eras Sample.db) ∧
  erasDB Sample.st = Some (parseEra Sample.db) ∧
  ("e1" ∈ drop (Z.to_nat (getVersionSlice Sample.prefs Sample.st))
           (parseEra Sample.db) ↔
   era_at_or_after (caniuse_era Sample.prefs) "e1").
Proof.
  assert (valid_eras (raw_eras Sample.db)) as Hvalid.
  { split.
    - refine (bool_decide_unpack _ _). vm_compute. exact I.
    - repeat constructor. }
  assert (caniuse_era Sample.prefs ∈ parseEra Sample.db) as Hera.
  { refine (bool_decide_unpack _ _). vm_compute. exact I. }
  assert ("e1" ∈ parseEra Sample.db) as Hk.
  { refine (bool_decide_unpack _ _). vm_compute. exact I. }
  split_and!; [exact Hvalid|reflexivity|].
  exact (cutoff_covers_later_eras Sample.db Sample.prefs Sample.st "e1"
           Hvalid eq_refl Hera Hk).
Defined.

Lemma load_idempotent_witness :
  (load (Doc Sample.browsers) Sample.st).1 = Ok () ∧
  load (Doc Sample.browsers) (load (Doc Sample.uncategorised) Sample.st).2
  = load (Doc Sample.browsers) Sample.st.
Proof.
  assert ((load (Doc Sample.browsers) Sample.st).1 = Ok ()) as Hok
    by reflexivity.
  split; [exact Hok|].
  exact (proj2 (load_idempotent (Doc Sample.browsers) Sample.st)
           (Doc Sample.uncategorised) Hok).
Defined.
